(** * go-gcp-img-meta: the image de-duplication service

    A shallow embedding of [service.go] (the [ImgDeduper] service, its
    index operations and its processing loop) and of the [/health]
    handler of the web server, followed by the properties of the
    duplicate-detection-and-copy pipeline.

    The external collaborators are modelled by a [World]:
    - the SQL table [images] (primary key [name]);
    - the object store, a list of named buckets;
    - scripted faults for the database, the copy and the listing calls;
    - a chronological trace of the calls the program issues (SQL
      statements, copies, log lines, metric calls).

    Go's [int] is taken to be 64 bits wide. *)

From Stdlib Require Import String Ascii List ZArith Lia Bool.
Import ListNotations.

Open Scope string_scope.
Open Scope Z_scope.

(** ** Go values *)

(** The [error] values the program can observe.  [None : option error]
    stands for Go's [nil]. *)
Inductive error : Type :=
| PgError (code : string)      (* *pgconn.PgError, with its SQLSTATE code *)
| IteratorDone                 (* iterator.Done *)
| PreconditionFailed           (* HTTP 412: the DoesNotExist condition failed *)
| ObjectNotExist               (* storage.ErrObjectNotExist *)
| BucketNotExist               (* storage.ErrBucketNotExist *)
| OtherError (msg : string).   (* network, permission, quota, ... *)

Definition error_eqb (a b : error) : bool :=
  match a, b with
  | PgError c, PgError d => String.eqb c d
  | IteratorDone, IteratorDone => true
  | PreconditionFailed, PreconditionFailed => true
  | ObjectNotExist, ObjectNotExist => true
  | BucketNotExist, BucketNotExist => true
  | OtherError m, OtherError n => String.eqb m n
  | _, _ => false
  end.

(** [storage.ObjectAttrs], restricted to the fields the service reads. *)
Record ObjectAttrs : Type := mkAttrs {
  Name : string;
  Size : Z;       (* int64 *)
  CRC32C : Z      (* uint32 *)
}.

(** A row of the table
    [images (name STRING PRIMARY KEY, section STRING, prefix STRING,
             size FLOAT, crc32 OID)].  [size] is the integer handed to
    the statement; the column holds it exactly below 2^53. *)
Record Row : Type := mkRow {
  name : string;
  section : string;
  prefix : string;
  size : Z;
  crc32 : Z
}.

(** 64-bit two's complement wrap-around of Go's [int]. *)
Definition max_int : Z := 2 ^ 63 - 1.
Definition wrap64 (z : Z) : Z := (z + 2 ^ 63) mod 2 ^ 64 - 2 ^ 63.

(** ** Strings and paths *)

(** [strings.Split(s, sep)] for a one-character separator. *)
Fixpoint strings_Split (s : string) (sep : ascii) : list string :=
  match s with
  | EmptyString => [EmptyString]
  | String c r =>
      match strings_Split r sep with
      | seg :: rest =>
          if Ascii.eqb c sep then EmptyString :: seg :: rest
          else String c seg :: rest
      | [] => [String c EmptyString]
      end
  end.

(** [strings.Join(l, "/")]. *)
Fixpoint join_slash (l : list string) : string :=
  match l with
  | [] => ""
  | [x] => x
  | x :: r => x ++ "/" ++ join_slash r
  end.

(** One step of [filepath.Clean] on the stack of kept elements (top
    first): empty and [.] elements are dropped, [..] removes the last
    kept element when there is one to remove, is dropped at the root and
    is kept otherwise. *)
Definition clean_step (rooted : bool) (stack : list string) (seg : string)
  : list string :=
  if String.eqb seg "" || String.eqb seg "." then stack
  else if String.eqb seg ".." then
    match stack with
    | top :: rest =>
        if String.eqb top ".." then seg :: stack else rest
    | [] => if rooted then [] else [seg]
    end
  else seg :: stack.

(** [filepath.Dir] on a slash-separated path: the last element is
    dropped and the rest is cleaned. *)
Definition filepath_Dir (path : string) : string :=
  let segs := strings_Split path "/" in
  let rooted := match path with String c _ => Ascii.eqb c "/" | _ => false end in
  let kept := rev (fold_left (clean_step rooted) (removelast segs) []) in
  if rooted then "/" ++ join_slash kept
  else match kept with [] => "." | _ => join_slash kept end.

(** ** Metrics *)

(** [prometheus.Labels], a map from label name to label value. *)
Definition Labels : Type := list (string * string).

(** The label names [objectProcessed] is declared with. *)
Definition variableLabels : list string := ["status"; "operation"].

Fixpoint label_value (k : string) (l : Labels) : option string :=
  match l with
  | [] => None
  | (k', v) :: r => if String.eqb k k' then Some v else label_value k r
  end.

(** The check [CounterVec.With] performs: as many labels as declared,
    and a value for each declared name. *)
Definition labelsValid (l : Labels) : bool :=
  (length l =? length variableLabels)%nat
  && forallb (fun n => match label_value n l with Some _ => true | None => false end)
       variableLabels.

(** ** The world outside the process *)

Inductive Level : Type := LDebug | LInfo | LError.

Inductive Event : Type :=
| EvLog (lvl : Level) (msg : string)
| EvCreateTable                         (* CREATE TABLE IF NOT EXISTS images *)
| EvCount (fingerprint : Z)             (* SELECT COUNT( * ) ... WHERE crc32 = $1 *)
| EvInsert (r : Row)                    (* INSERT ... ON CONFLICT (name) DO NOTHING *)
| EvNext                                (* ObjectIterator.Next *)
| EvCopy (src dst object : string)      (* conditional server-side copy *)
| EvWith (labels : Labels)              (* objectProcessed.With(labels) *)
| EvInc (labels : Labels).              (* Counter.Inc on the child it returned *)

Definition Bucket : Type := list ObjectAttrs.

Record World : Type := mkWorld {
  images : option (list Row);               (* None: the table is absent *)
  dbFaults : list (option error);           (* one entry per begin, statement, commit *)
  buckets : list (string * Bucket);
  copyFaults : list (option error);         (* one entry per copy *)
  listFaults : list (option error);         (* one entry per Next *)
  trace : list Event
}.

Definition set_images (t : option (list Row)) (w : World) : World :=
  mkWorld t (dbFaults w) (buckets w) (copyFaults w) (listFaults w) (trace w).
Definition set_dbFaults (f : list (option error)) (w : World) : World :=
  mkWorld (images w) f (buckets w) (copyFaults w) (listFaults w) (trace w).
Definition set_buckets (b : list (string * Bucket)) (w : World) : World :=
  mkWorld (images w) (dbFaults w) b (copyFaults w) (listFaults w) (trace w).
Definition set_copyFaults (f : list (option error)) (w : World) : World :=
  mkWorld (images w) (dbFaults w) (buckets w) f (listFaults w) (trace w).
Definition set_trace (t : list Event) (w : World) : World :=
  mkWorld (images w) (dbFaults w) (buckets w) (copyFaults w) (listFaults w) t.

(** ** A state monad with panics *)

Inductive Result (A : Type) : Type :=
| Ok (a : A)
| Panic (msg : string).
Arguments Ok {A} a.
Arguments Panic {A} msg.

Definition M (S A : Type) : Type := S -> Result A * S.

Definition ret {S A} (a : A) : M S A := fun s => (Ok a, s).

Definition bind {S A B} (m : M S A) (k : A -> M S B) : M S B :=
  fun s =>
    match m s with
    | (Ok a, s') => k a s'
    | (Panic msg, s') => (Panic msg, s')
    end.

Definition panic {S A} (msg : string) : M S A := fun s => (Panic msg, s).
Definition gets {S A} (f : S -> A) : M S A := fun s => (Ok (f s), s).
Definition modify {S} (f : S -> S) : M S unit := fun s => (Ok tt, f s).

Declare Scope go_scope.
Delimit Scope go_scope with go.
Notation "x <- c1 ;; c2" := (bind c1 (fun x => c2))
  (at level 61, c1 at next level, right associativity) : go_scope.
Notation "' pat <- c1 ;; c2" := (bind c1 (fun x => match x with pat => c2 end))
  (at level 61, pat pattern, c1 at next level, right associativity) : go_scope.
Notation "c1 ;; c2" := (bind c1 (fun _ => c2))
  (at level 61, right associativity) : go_scope.
Open Scope go_scope.

Definition emit (e : Event) : M World unit :=
  modify (fun w => set_trace (trace w ++ [e]) w).

Definition log (lvl : Level) (msg : string) : M World unit :=
  emit (EvLog lvl msg).

(** ** The [images] table *)

(** The next scripted database fault; an exhausted script means no
    fault.  An entry is an error that the retrying transaction wrapper
    does not recover from. *)
Definition popDbFault : M World (option error) :=
  fun w =>
    match dbFaults w with
    | [] => (Ok None, w)
    | f :: fs => (Ok f, set_dbFaults fs w)
    end.

Definition has_name (n : string) (rows : list Row) : bool :=
  existsb (fun r => String.eqb (name r) n) rows.

Definition count_crc32 (c : Z) (rows : list Row) : Z :=
  Z.of_nat (length (filter (fun r => crc32 r =? c) rows)).

(** [INSERT ... ON CONFLICT (name) DO NOTHING]. *)
Definition insert_row (r : Row) (rows : list Row) : list Row :=
  if has_name (name r) rows then rows else rows ++ [r].

(** SQLSTATE 42P01, undefined_table. *)
Definition undefined_table : error := PgError "42P01".

Definition exec_createTable : M World (option error) :=
  emit EvCreateTable ;;
  f <- popDbFault ;;
  match f with
  | Some e => ret (Some e)
  | None =>
      modify (fun w => match images w with
                       | None => set_images (Some []) w
                       | Some _ => w
                       end) ;;
      ret None
  end.

Definition exec_insert (r : Row) : M World (option error) :=
  emit (EvInsert r) ;;
  f <- popDbFault ;;
  match f with
  | Some e => ret (Some e)
  | None =>
      t <- gets images ;;
      match t with
      | None => ret (Some undefined_table)
      | Some rows => modify (set_images (Some (insert_row r rows))) ;; ret None
      end
  end.

(** The query and the [rows.Next]/[rows.Scan] loop over its single row:
    the result is the value left in [count]. *)
Definition query_count (c : Z) : M World (Z * option error) :=
  emit (EvCount c) ;;
  f <- popDbFault ;;
  match f with
  | Some e => ret (0, Some e)
  | None =>
      t <- gets images ;;
      match t with
      | None => ret (0, Some undefined_table)
      | Some rows => ret (count_crc32 c rows, None)
      end
  end.

(** [crdbpgx.ExecuteTx]: a transaction is begun, the body runs in it,
    and it is committed; it is rolled back when the body or the commit
    fails.  [A] carries the variables the body's closure assigns, [a0]
    their values before the call: the body does not run when the
    transaction cannot be begun.  A commit fault of the script is a
    commit that did not take effect; a commit that took effect although
    an error was returned is not in the model. *)
Definition ExecuteTx {A} (a0 : A) (fn : M World (A * option error))
  : M World (A * option error) :=
  begin <- popDbFault ;;
  match begin with
  | Some e => ret (a0, Some e)
  | None =>
      snapshot <- gets images ;;
      '(a, err) <- fn ;;
      match err with
      | Some e => modify (set_images snapshot) ;; ret (a, Some e)
      | None =>
          f <- popDbFault ;;
          match f with
          | Some e => modify (set_images snapshot) ;; ret (a, Some e)
          | None => ret (a, None)
          end
      end
  end.

Definition initTable : M World (unit * option error) :=
  log LInfo "creating image table" ;;
  err <- exec_createTable ;;
  let continue := log LInfo "image table created" ;; ret (tt, None) in
  match err with
  | Some (PgError code) =>
      if negb (String.eqb code "42P07") then ret (tt, Some (PgError code))
      else continue
  | _ => continue
  end.

Definition insertImage (i : ObjectAttrs) (s : string) : M World (option error) :=
  '(_, err) <- ExecuteTx tt
     (err <- exec_insert (mkRow (Name i) s (filepath_Dir (Name i)) (Size i) (CRC32C i)) ;;
      ret (tt, err)) ;;
  ret err.

Definition getImageCount (c : Z) : M World (Z * option error) :=
  ExecuteTx 0 (query_count c).

(** ** The object store *)

Fixpoint lookup_bucket (b : string) (bs : list (string * Bucket)) : option Bucket :=
  match bs with
  | [] => None
  | (n, objs) :: r => if String.eqb b n then Some objs else lookup_bucket b r
  end.

Fixpoint update_bucket (b : string) (objs : Bucket) (bs : list (string * Bucket))
  : list (string * Bucket) :=
  match bs with
  | [] => []
  | (n, o) :: r =>
      if String.eqb b n then (n, objs) :: r else (n, o) :: update_bucket b objs r
  end.

Definition find_object (n : string) (objs : Bucket) : option ObjectAttrs :=
  find (fun a => String.eqb (Name a) n) objs.

Definition has_object (n : string) (objs : Bucket) : bool :=
  match find_object n objs with Some _ => true | None => false end.

Definition popCopyFault : M World (option error) :=
  fun w =>
    match copyFaults w with
    | [] => (Ok None, w)
    | f :: fs => (Ok f, set_copyFaults fs w)
    end.

(** [dst.Object(n).If(storage.Conditions{DoesNotExist: true})
        .CopierFrom(src.Object(n)).Run(ctx)]:
    the copy is refused with a precondition failure when the destination
    bucket already holds an object of that name. *)
Definition copyIfAbsent (src dst n : string) : M World (option error) :=
  emit (EvCopy src dst n) ;;
  f <- popCopyFault ;;
  match f with
  | Some e => ret (Some e)
  | None =>
      bs <- gets buckets ;;
      match lookup_bucket src bs, lookup_bucket dst bs with
      | Some s, Some d =>
          match find_object n s with
          | None => ret (Some ObjectNotExist)
          | Some o =>
              if has_object n d then ret (Some PreconditionFailed)
              else modify (set_buckets (update_bucket dst (d ++ [o])%list bs)) ;;
                   ret None
          end
      | _, _ => ret (Some BucketNotExist)
      end
  end.

(** *** Listing with a glob filter *)

(** The wildcards of the store's [matchGlob] syntax that are interpreted
    here: [*] (any run of characters other than [/]), [**] (any run of
    characters) and [?] (one character other than [/]).  Every other
    character stands for itself. *)
Inductive GlobTok : Type :=
| GLit (c : ascii)
| GAny1
| GStar
| GDoubleStar.

Fixpoint glob_tokens (p : string) : list GlobTok :=
  match p with
  | EmptyString => []
  | String c r =>
      if Ascii.eqb c "*" then
        match r with
        | String c' r' =>
            if Ascii.eqb c' "*" then GDoubleStar :: glob_tokens r'
            else GStar :: glob_tokens r
        | EmptyString => [GStar]
        end
      else if Ascii.eqb c "?" then GAny1 :: glob_tokens r
      else GLit c :: glob_tokens r
  end.

Fixpoint tokens_match (p : list GlobTok) (s : string) {struct p} : bool :=
  match p with
  | [] => match s with EmptyString => true | _ => false end
  | GLit c :: p' =>
      match s with
      | String c' s' => Ascii.eqb c c' && tokens_match p' s'
      | EmptyString => false
      end
  | GAny1 :: p' =>
      match s with
      | String c' s' => negb (Ascii.eqb c' "/") && tokens_match p' s'
      | EmptyString => false
      end
  | GStar :: p' =>
      (fix star (s : string) : bool :=
         tokens_match p' s
         || match s with
            | String c' s' => negb (Ascii.eqb c' "/") && star s'
            | EmptyString => false
            end) s
  | GDoubleStar :: p' =>
      (fix dstar (s : string) : bool :=
         tokens_match p' s
         || match s with
            | String _ s' => dstar s'
            | EmptyString => false
            end) s
  end.

Definition glob_match (pattern s : string) : bool :=
  tokens_match (glob_tokens pattern) s.

(** [storage.Query], restricted to [MatchGlob]; the empty glob filters
    nothing. *)
Record Query : Type := mkQuery { MatchGlob : string }.

Definition query_keeps (q : Query) (a : ObjectAttrs) : bool :=
  if String.eqb (MatchGlob q) "" then true else glob_match (MatchGlob q) (Name a).

(** What one call of [ObjectIterator.Next] will deliver. *)
Inductive NextResult : Type :=
| Item (a : ObjectAttrs)
| Fail (e : error).

Definition ObjectIterator : Type := list NextResult.

(** The scripted listing faults interleaved with the listed objects: the
    k-th entry of the script rules the k-th call of [Next]. *)
Fixpoint mkScript (faults : list (option error)) (items : list ObjectAttrs)
  : ObjectIterator :=
  match faults with
  | [] => map Item items
  | Some e :: fs => Fail e :: mkScript fs items
  | None :: fs =>
      match items with
      | [] => []
      | a :: r => Item a :: mkScript fs r
      end
  end.

(** The objects [bucket.Objects(ctx, q)] enumerates, in listing order. *)
Definition listed (q : Query) (objs : Bucket) : list ObjectAttrs :=
  filter (query_keeps q) objs.

(** [src.Objects(ctx, q)]. *)
Definition Objects (b : string) (q : Query) : M World ObjectIterator :=
  fun w =>
    match lookup_bucket b (buckets w) with
    | Some objs => (Ok (mkScript (listFaults w) (listed q objs)), w)
    | None => (Ok [Fail BucketNotExist], w)
    end.

(** [b.Next()]: the attributes (nil together with an error), the error,
    and the rest of the iterator.  An exhausted iterator answers
    [iterator.Done]. *)
Definition Next (b : ObjectIterator)
  : option ObjectAttrs * option error * ObjectIterator :=
  match b with
  | [] => (None, Some IteratorDone, [])
  | Item a :: r => (Some a, None, r)
  | Fail e :: r => (None, Some e, r)
  end.

(** ** The counter vector [objectProcessed] *)

(** [CounterVec.With] panics when the labels given are not exactly the
    declared ones. *)
Definition With (l : Labels) : M World Labels :=
  emit (EvWith l) ;;
  if labelsValid l then ret l
  else panic "inconsistent label cardinality".

Definition Inc (c : Labels) : M World unit := emit (EvInc c).

(** ** Per-object processing *)

Definition processImage (src dst : string) (attrs : option ObjectAttrs)
  : M World unit :=
  match attrs with
  | None => panic "invalid memory address or nil pointer dereference"
  | Some a =>
      let s := hd "" (strings_Split (Name a) "/") in
      let status := "skip" in
      '(count, err) <- getImageCount (CRC32C a) ;;
      match err with
      | Some _ =>
          log LError "failed to count existing image" ;;
          c <- With [("status", "error")] ;;
          Inc c
      | None =>
          log LDebug "count" ;;
          err <- insertImage a s ;;
          match err with
          | Some _ =>
              c <- With [("status", "error")] ;;
              Inc c ;;
              log LError "failed to insert image"
          | None =>
              log LDebug "insert" ;;
              let finish (status : string) : M World unit :=
                c <- With [("status", "success"); ("operation", status)] ;;
                Inc c ;;
                log LInfo "image" in
              if count =? 0 then
                let status := "copy" in
                log LDebug "init copy" ;;
                err <- copyIfAbsent src dst (Name a) ;;
                match err with
                | Some _ =>
                    log LError "copy" ;;
                    c <- With [("status", "error"); ("operation", status)] ;;
                    Inc c
                | None =>
                    log LDebug "copy" ;;
                    finish status
                end
              else finish status
          end
      end
  end.

(** ** The service *)

Record SvcOptions : Type := mkOpts {
  oLimit : Z;
  oPrefix : string;
  oSrcBucketName : string;
  oDstBucketName : string
}.

Record ImgDeduper : Type := mkSvc {
  Ready : bool;
  Limit : Z;
  Prefix : string;
  SrcBucketName : string;
  DstBucketName : string
}.

Definition NewSvc (o : SvcOptions) : ImgDeduper :=
  mkSvc false (oLimit o) (oPrefix o) (oSrcBucketName o) (oDstBucketName o).

Definition IsReady (svc : ImgDeduper) : bool := Ready svc.

Definition set_Ready (b : bool) (svc : ImgDeduper) : ImgDeduper :=
  mkSvc b (Limit svc) (Prefix svc) (SrcBucketName svc) (DstBucketName svc).

(** The process: the service object, shared by pointer with the web
    server and the signal handler, the world, and the moment the write
    of [Stop] to the flag lands: [Some k] when it lands after [Start]
    has set the flag and the loop has tested it [k] times (an object
    being processed at that moment is completed, the loop reading the
    flag only at its next test); [None] when it does not land during
    the loop: [Stop] is not called, or is called before [Start] sets
    the flag, in which case [svc.Ready = true] overwrites it. *)
Record Machine : Type := mkMachine {
  self : ImgDeduper;
  world : World;
  stopAfter : option nat
}.

Definition liftW {A} (m : M World A) : M Machine A :=
  fun s =>
    let '(r, w) := m (world s) in
    (r, mkMachine (self s) w (stopAfter s)).

Definition Stop : M Machine unit :=
  liftW (log LInfo "stopping service") ;;
  modify (fun s => mkMachine (set_Ready false (self s)) (world s) (stopAfter s)).

(** The write of [Stop], as the loop observes it at its next test of
    the flag. *)
Definition signalHandler : M Machine unit :=
  k <- gets stopAfter ;;
  match k with
  | None => ret tt
  | Some O =>
      modify (fun s => mkMachine (self s) (world s) None) ;;
      Stop
  | Some (S n) => modify (fun s => mkMachine (self s) (world s) (Some n))
  end.

(** The [for svc.Ready] loop of [Start]. *)
Fixpoint loop (src dst : string) (b : ObjectIterator) (idx : Z) {struct b}
  : M Machine unit :=
  signalHandler ;;
  svc <- gets self ;;
  if Ready svc then
    let idx := wrap64 (idx + 1) in
    if negb (Limit svc =? 0) && (idx >? Limit svc) then
      liftW (log LInfo "limit reached")
    else
      liftW (emit EvNext) ;;
      match b with
      | [] => ret tt
      | r :: b' =>
          let '(attrs, err, _) := Next (r :: b') in
          match err with
          | Some IteratorDone => ret tt
          | _ =>
              match err with
              | Some _ => liftW (log LError "failed to get next bucket object")
              | None => ret tt
              end ;;
              liftW (processImage src dst attrs) ;;
              loop src dst b' idx
          end
      end
  else ret tt.

(** The query [Start] lists the source bucket with. *)
Definition listQuery (svc : ImgDeduper) : Query :=
  if negb (String.eqb (Prefix svc) "")
  then mkQuery (Prefix svc ++ "/*.jpg")
  else mkQuery "".

Definition Start : M Machine (option error) :=
  svc <- gets self ;;
  liftW (log LInfo "service started") ;;
  let idx := 0 in
  let dst := DstBucketName svc in
  let src := SrcBucketName svc in
  liftW (log LInfo "dst bucket") ;;
  liftW (log LInfo "src bucket") ;;
  let q := listQuery svc in
  b <- liftW (Objects src q) ;;
  '(_, err) <- liftW (ExecuteTx tt initTable) ;;
  match err with
  | Some e => ret (Some e)
  | None =>
      modify (fun s => mkMachine (set_Ready true (self s)) (world s) (stopAfter s)) ;;
      liftW (log LInfo "service ready") ;;
      loop src dst b idx ;;
      ret None
  end.

(** ** The [/health] handler of the web server *)

Definition health (svc : ImgDeduper) : Z * string :=
  if IsReady svc then (200, "ready") else (500, "not ready").

(** * Notions used in the statements *)

(** ** Observations on traces *)

(** The outcome the processor reports for an object, read off the labels
    it hands to the counter vector. *)
Inductive Outcome : Type := SuccessCopy | SuccessSkip | OutcomeError.

Definition outcome_of (l : Labels) : option Outcome :=
  match label_value "status" l with
  | Some st =>
      if String.eqb st "error" then Some OutcomeError
      else if String.eqb st "success" then
        match label_value "operation" l with
        | Some op =>
            if String.eqb op "copy" then Some SuccessCopy
            else if String.eqb op "skip" then Some SuccessSkip
            else None
        | None => None
        end
      else None
  | None => None
  end.

Fixpoint outcomes (t : list Event) : list Outcome :=
  match t with
  | [] => []
  | EvWith l :: r =>
      match outcome_of l with
      | Some o => o :: outcomes r
      | None => outcomes r
      end
  | _ :: r => outcomes r
  end.

Definition is_copy (e : Event) : bool :=
  match e with EvCopy _ _ _ => true | _ => false end.
Definition is_insert (e : Event) : bool :=
  match e with EvInsert _ => true | _ => false end.
Definition is_count (e : Event) : bool :=
  match e with EvCount _ => true | _ => false end.
Definition is_inc (e : Event) : bool :=
  match e with EvInc _ => true | _ => false end.
Definition is_next (e : Event) : bool :=
  match e with EvNext => true | _ => false end.

(** The rows the program tried to insert, in order. *)
Fixpoint inserted (t : list Event) : list Row :=
  match t with
  | [] => []
  | EvInsert r :: t' => r :: inserted t'
  | _ :: t' => inserted t'
  end.

(** The row [insertImage] builds for an object. *)
Definition row_of (a : ObjectAttrs) : Row :=
  mkRow (Name a) (hd "" (strings_Split (Name a) "/")) (filepath_Dir (Name a))
        (Size a) (CRC32C a).

(** A fault script without faults. *)
Definition healthy (l : list (option error)) : Prop :=
  Forall (fun f => f = None) l.

(** A transaction consumes three entries of the fault script: begin,
    statement, commit. *)
Definition tl3 {A} (l : list A) : list A := tl (tl (tl l)).
Definition tl6 {A} (l : list A) : list A := tl3 (tl3 l).

(** The world after the count and the insert of a healthy pass. *)
Definition after_insert (a : ObjectAttrs) (rows : list Row) (w : World) : World :=
  mkWorld (Some (insert_row (row_of a) rows)) (tl6 (dbFaults w)) (buckets w)
          (copyFaults w) (listFaults w)
          (trace w ++ [EvCount (CRC32C a); EvLog LDebug "count";
                       EvInsert (row_of a); EvLog LDebug "insert"]).

Definition skip_events : list Event :=
  [EvWith [("status", "success"); ("operation", "skip")];
   EvInc [("status", "success"); ("operation", "skip")];
   EvLog LInfo "image"].

Definition copy_events (src dst : string) (a : ObjectAttrs) : list Event :=
  [EvLog LDebug "init copy"; EvCopy src dst (Name a); EvLog LDebug "copy";
   EvWith [("status", "success"); ("operation", "copy")];
   EvInc [("status", "success"); ("operation", "copy")];
   EvLog LInfo "image"].

Definition copy_error_events (src dst : string) (a : ObjectAttrs) : list Event :=
  [EvLog LDebug "init copy"; EvCopy src dst (Name a); EvLog LError "copy";
   EvWith [("status", "error"); ("operation", "copy")];
   EvInc [("status", "error"); ("operation", "copy")]].

Definition add_events (evs : list Event) (w : World) : World :=
  set_trace (trace w ++ evs) w.

(** ** Sequential processing *)

(** Processing a list of objects one after the other. *)
Fixpoint processAll (src dst : string) (objs : list ObjectAttrs) : M World unit :=
  match objs with
  | [] => ret tt
  | a :: r => processImage src dst (Some a) ;; processAll src dst r
  end.

(** ** Sample data: the three objects of the README *)

Definition img1_1 : ObjectAttrs := mkAttrs "A/1/1_1.jpg" 253648 2784486622.
Definition img1_2 : ObjectAttrs := mkAttrs "A/1/1_2.jpg" 253703 3645130469.
Definition img2_1 : ObjectAttrs := mkAttrs "A/2/2_1.jpg" 253703 3645130469.

Definition sample_buckets : list (string * Bucket) :=
  [("src", [img1_1; img1_2; img2_1]); ("dst", [])].

(** An existing, empty table, an empty destination, no faults. *)
Definition sample_world : World :=
  mkWorld (Some []) [] sample_buckets [] [] [].

(** The events a run adds to the trace. *)
Definition new_events (w w' : World) : list Event :=
  skipn (length (trace w)) (trace w').

(** The destination already holds the object named like the first
    object of the README; the table is empty, so the count is 0 and the
    copy is attempted. *)
Definition world_with_existing_destination : World :=
  mkWorld (Some []) [] [("src", [img1_1; img1_2; img2_1]); ("dst", [img1_1])]
          [] [] [].

Definition world_count_fails : World :=
  mkWorld (Some []) [None; Some (OtherError "connection reset")]
          sample_buckets [] [] [].

Definition world_insert_fails : World :=
  mkWorld (Some []) [None; None; None; None; Some (OtherError "connection reset")]
          sample_buckets [] [] [].

(** The world a first, successful pass over the first object of the
    README leaves behind. *)
Definition world_after_first_pass : World :=
  snd (processImage "src" "dst" (Some img1_1) sample_world).

(** A third object with the fingerprint of [img1_2] and [img2_1]. *)
Definition img3_1 : ObjectAttrs := mkAttrs "A/3/3_1.jpg" 253703 3645130469.

(** The index holds the third object only. *)
Definition world_fingerprint_known : World :=
  mkWorld (Some [row_of img3_1]) [] sample_buckets [] [] [].

(** The index is empty and the destination already holds an object
    named like [img1_2]. *)
Definition world_destination_taken : World :=
  mkWorld (Some []) [] [("src", [img1_1; img1_2; img2_1]); ("dst", [img1_2])]
          [] [] [].

(** ** Start-up and the loop *)

(** The log lines [Start] writes before the schema transaction. *)
Definition startup_events : list Event :=
  [EvLog LInfo "service started"; EvLog LInfo "dst bucket";
   EvLog LInfo "src bucket"].

(** Events of the processing of objects: fetching, counting, inserting
    and copying. *)
Definition is_processing (e : Event) : bool :=
  is_next e || is_count e || is_insert e || is_copy e.

(** The iterator [Start] obtains from the source bucket. *)
Definition sourceIterator (m : Machine) : ObjectIterator :=
  match lookup_bucket (SrcBucketName (self m)) (buckets (world m)) with
  | Some objs => mkScript (listFaults (world m)) (listed (listQuery (self m)) objs)
  | None => [Fail BucketNotExist]
  end.

(** The database refuses the statement that creates the table. *)
Definition machine_database_down : Machine :=
  mkMachine (NewSvc (mkOpts 0 "" "src" "dst"))
            (mkWorld None [None; Some (PgError "57P03")] sample_buckets [] [] [])
            None.

(** The listing fails on the very first page. *)
Definition machine_listing_fails : Machine :=
  mkMachine (NewSvc (mkOpts 0 "" "src" "dst"))
            (mkWorld (Some []) [] sample_buckets []
                     [Some (OtherError "backend unavailable")] [])
            None.

Definition machine_unlimited : Machine :=
  mkMachine (NewSvc (mkOpts 0 "" "src" "dst")) sample_world None.

Definition machine_limit_1 : Machine :=
  mkMachine (NewSvc (mkOpts 1 "" "src" "dst")) sample_world None.

Definition machine_stopped_after_1 : Machine :=
  mkMachine (NewSvc (mkOpts 0 "" "src" "dst")) sample_world (Some 1%nat).

(** The fingerprints counted, in order. *)
Fixpoint counted (t : list Event) : list Z :=
  match t with
  | [] => []
  | EvCount c :: t' => c :: counted t'
  | _ :: t' => counted t'
  end.

(** The objects a run with limit [n] gets to, out of those listed. *)
Definition within_limit (n : Z) (objs : list ObjectAttrs) : list ObjectAttrs :=
  if n =? 0 then objs else firstn (Z.to_nat n) objs.

Definition machine_limit_2 : Machine :=
  mkMachine (NewSvc (mkOpts 2 "" "src" "dst"))
            (mkWorld None [] sample_buckets [] [] []) None.

(** ** Glob patterns *)

(** The characters with a meaning in the store's glob syntax. *)
Definition glob_meta (c : ascii) : bool :=
  Ascii.eqb c "*" || Ascii.eqb c "?" || Ascii.eqb c "[" || Ascii.eqb c "]"
  || Ascii.eqb c "{" || Ascii.eqb c "}" || Ascii.eqb c "\".

(** A string without glob characters. *)
Fixpoint plain (s : string) : bool :=
  match s with
  | EmptyString => true
  | String c r => negb (glob_meta c) && plain r
  end.

(** A string without [/]: one path segment. *)
Fixpoint no_slash (s : string) : bool :=
  match s with
  | EmptyString => true
  | String c r => negb (Ascii.eqb c "/") && no_slash r
  end.

(** The tokens of a pattern without glob characters. *)
Fixpoint literals (s : string) : list GlobTok :=
  match s with
  | EmptyString => []
  | String c r => GLit c :: literals r
  end.

(** The second invocation of the README: [-limit 25 -prefix "A/**"]. *)
Definition svc_readme : ImgDeduper := NewSvc (mkOpts 25 "A/**" "src" "dst").

(** The first invocation of the README: [-prefix A]. *)
Definition svc_prefix_A : ImgDeduper := NewSvc (mkOpts 0 "A" "src" "dst").

Definition img_top : ObjectAttrs := mkAttrs "A/top.jpg" 1000 42.

(** ** Invariants of the table and of the store *)

(** The primary key holds: no two rows of the table share a name. *)
Definition table_keyed (w : World) : Prop :=
  match images w with
  | Some rows => NoDup (map name rows)
  | None => True
  end.

(** Every row of [w0] is still in [w], unchanged and at its place; rows
    were at most appended. *)
Definition rows_kept (w0 w : World) : Prop :=
  forall rows, images w0 = Some rows ->
    exists extra, images w = Some (rows ++ extra)%list.

(** Every object of bucket [b] in [w0] is still in [w], unchanged and at
    its place; objects were at most appended. *)
Definition objects_kept (b : string) (w0 w : World) : Prop :=
  forall d, lookup_bucket b (buckets w0) = Some d ->
    exists extra, lookup_bucket b (buckets w) = Some (d ++ extra)%list.

(** No two objects of bucket [b] share a name. *)
Definition bucket_keyed (b : string) (w : World) : Prop :=
  forall d, lookup_bucket b (buckets w) = Some d -> NoDup (map Name d).

(** Every object of bucket [b] has a row of its name in the table. *)
Definition bucket_indexed (b : string) (w : World) : Prop :=
  forall d o, lookup_bucket b (buckets w) = Some d -> In o d ->
    exists rows, images w = Some rows /\ has_name (Name o) rows = true.

(** Every object of the list has its row, by name and fingerprint, in
    the rows. *)
Definition all_indexed (objs : list ObjectAttrs) (rows : list Row) : Prop :=
  forall a, In a objs ->
    exists r, In r rows /\ name r = Name a /\ crc32 r = CRC32C a.

(** The metric increments of a trace, in order. *)
Fixpoint increments (t : list Event) : list Labels :=
  match t with
  | [] => []
  | EvInc l :: t' => l :: increments t'
  | _ :: t' => increments t'
  end.

(** A world with a table of two rows that share a fingerprint, and a
    commit that fails after the statement went through. *)
Definition world_commit_fails : World :=
  mkWorld (Some [row_of img1_2]) [None; None; Some (OtherError "commit failed")]
          sample_buckets [] [] [].

(** The stop request lands after two iterations. *)
Definition machine_stopped_after_2 : Machine :=
  mkMachine (NewSvc (mkOpts 0 "" "src" "dst")) sample_world (Some 2%nat).

(** A negative limit. *)
Definition machine_negative_limit : Machine :=
  mkMachine (NewSvc (mkOpts (-1) "" "src" "dst")) sample_world None.

(** The world a complete run over the sample bucket leaves behind,
    with an empty trace: three rows, two objects copied. *)
Definition world_after_full_run : World :=
  mkWorld (Some [row_of img1_1; row_of img1_2; row_of img2_1]) []
          [("src", [img1_1; img1_2; img2_1]); ("dst", [img1_1; img1_2])]
          [] [] [].

(** A second service over the world the first run left behind. *)
Definition machine_second_run : Machine :=
  mkMachine (NewSvc (mkOpts 0 "" "src" "dst")) world_after_full_run None.

(** The object named like the first object of the README was indexed
    when it had other content: the table holds a row of its name with
    another fingerprint. *)
Definition world_stale_row : World :=
  mkWorld (Some [mkRow "A/1/1_1.jpg" "A" "A/1" 200000 1234567]) []
          sample_buckets [] [] [].

(** * Properties *)

(** ** Fault scripts and traces *)

Lemma healthy_tl l : healthy l -> healthy (tl l).
Proof. destruct 1; simpl; [constructor | assumption]. Qed.

Lemma healthy_tl3 l : healthy l -> healthy (tl3 l).
Proof. intros H. unfold tl3. auto using healthy_tl. Qed.

Lemma healthy_tl6 l : healthy l -> healthy (tl6 l).
Proof. intros H. unfold tl6. auto using healthy_tl3. Qed.

Ltac inv_healthy :=
  unfold healthy in *;
  repeat match goal with
         | H : Forall _ (_ :: _) |- _ => inversion H; subst; clear H
         end.

Lemma inserted_app t u : inserted (t ++ u) = (inserted t ++ inserted u)%list.
Proof.
  induction t as [|e t IH]; simpl; [reflexivity|].
  destruct e; simpl; rewrite ?IH; reflexivity.
Qed.

Lemma outcomes_app t u : outcomes (t ++ u) = (outcomes t ++ outcomes u)%list.
Proof.
  induction t as [|e t IH]; simpl; [reflexivity|].
  destruct e; simpl; rewrite ?IH; try reflexivity.
  destruct (outcome_of labels); simpl; rewrite ?IH; reflexivity.
Qed.

(** ** The index operations, call by call *)

Ltac run :=
  unfold log, emit, bind, ret, gets, modify, panic,
         set_images, set_dbFaults, set_buckets, set_copyFaults, set_trace;
  simpl.

Ltac frame_solve :=
  do 3 eexists; split; [reflexivity|]; simpl;
  repeat split; auto; try (intros; discriminate); eauto.

(** The count never panics and never changes the table or the store; it
    logs its query, unless the transaction could not be begun; when it
    succeeds the table exists and the count is the number of rows with
    that fingerprint. *)
Lemma getImageCount_frame (c : Z) (w : World) :
  exists cnt err w',
    getImageCount c w = (Ok (cnt, err), w')
    /\ images w' = images w
    /\ buckets w' = buckets w
    /\ copyFaults w' = copyFaults w
    /\ listFaults w' = listFaults w
    /\ (trace w' = trace w \/ trace w' = (trace w ++ [EvCount c])%list)
    /\ (err = None ->
        trace w' = (trace w ++ [EvCount c])%list
        /\ exists rows, images w = Some rows /\ cnt = count_crc32 c rows).
Proof.
  unfold getImageCount, ExecuteTx, query_count, popDbFault. run.
  destruct w as [img fl bs cf lf tr]; simpl.
  destruct fl as [|[e1|] [|[e2|] [|[e3|] fl]]]; simpl;
    destruct img as [rows|]; simpl; frame_solve.
Qed.

(** With a healthy database the count succeeds. *)
Lemma getImageCount_healthy (c : Z) (w : World) (rows : list Row) :
  images w = Some rows ->
  healthy (dbFaults w) ->
  getImageCount c w
  = (Ok (count_crc32 c rows, None),
     mkWorld (Some rows) (tl3 (dbFaults w)) (buckets w) (copyFaults w)
             (listFaults w) (trace w ++ [EvCount c])).
Proof.
  intros Himg Hh.
  unfold getImageCount, ExecuteTx, query_count, popDbFault. run.
  destruct w as [img fl bs cf lf tr]; simpl in *. subst img.
  destruct fl as [|f1 [|f2 [|f3 fl]]]; inv_healthy; reflexivity.
Qed.

(** The insert never panics and never touches the store; it logs its
    statement, unless the transaction could not be begun; when it
    succeeds the table holds the row unless a row of that name was
    there, and when it fails the table is as before. *)
Lemma insertImage_frame (a : ObjectAttrs) (s : string) (w : World) :
  exists err w',
    insertImage a s w = (Ok err, w')
    /\ buckets w' = buckets w
    /\ copyFaults w' = copyFaults w
    /\ listFaults w' = listFaults w
    /\ (trace w' = trace w
        \/ trace w' = (trace w ++ [EvInsert (mkRow (Name a) s (filepath_Dir (Name a))
                                                   (Size a) (CRC32C a))])%list)
    /\ (err = None ->
        trace w' = (trace w ++ [EvInsert (mkRow (Name a) s (filepath_Dir (Name a))
                                               (Size a) (CRC32C a))])%list
        /\ exists rows, images w = Some rows
          /\ images w' = Some (insert_row (mkRow (Name a) s (filepath_Dir (Name a))
                                                (Size a) (CRC32C a)) rows))
    /\ (err <> None -> images w' = images w).
Proof.
  unfold insertImage, ExecuteTx, exec_insert, popDbFault. run.
  destruct w as [img fl bs cf lf tr]; simpl.
  destruct fl as [|[e1|] [|[e2|] [|[e3|] fl]]]; simpl;
    destruct img as [rows|]; simpl;
    do 2 eexists; (split; [reflexivity|]); simpl;
    repeat split; auto; try (intros; discriminate); try congruence; eauto.
Qed.

Lemma insertImage_healthy (a : ObjectAttrs) (s : string) (w : World)
      (rows : list Row) :
  images w = Some rows ->
  healthy (dbFaults w) ->
  insertImage a s w
  = (Ok None,
     mkWorld (Some (insert_row (mkRow (Name a) s (filepath_Dir (Name a))
                                      (Size a) (CRC32C a)) rows))
             (tl3 (dbFaults w)) (buckets w) (copyFaults w)
             (listFaults w)
             (trace w ++ [EvInsert (mkRow (Name a) s (filepath_Dir (Name a))
                                         (Size a) (CRC32C a))])).
Proof.
  intros Himg Hh.
  unfold insertImage, ExecuteTx, exec_insert, popDbFault. run.
  destruct w as [img fl bs cf lf tr]; simpl in *. subst img.
  destruct fl as [|f1 [|f2 [|f3 fl]]]; inv_healthy; reflexivity.
Qed.

(** The copy never touches the table and logs exactly one call; it
    changes the store only when it succeeds. *)
Lemma copyIfAbsent_frame (src dst n : string) (w : World) :
  exists err bs cf,
    copyIfAbsent src dst n w
    = (Ok err,
       mkWorld (images w) (dbFaults w) bs cf (listFaults w)
               (trace w ++ [EvCopy src dst n]))
    /\ (err <> None -> bs = buckets w).
Proof.
  unfold copyIfAbsent, popCopyFault. run.
  destruct w as [img fl bs cf lf tr]; simpl.
  destruct cf as [|[e|] cf]; simpl;
    try (do 3 eexists; split; reflexivity);
    (destruct (lookup_bucket src bs) as [s0|];
     [destruct (lookup_bucket dst bs) as [d|];
      [destruct (find_object n s0) as [o|];
       [destruct (has_object n d)|]|]|];
     do 3 eexists; split; try reflexivity; congruence).
Qed.

(** A copy cannot succeed while the destination bucket holds an object
    of that name: it leaves the store as it is and returns an error. *)
Lemma copyIfAbsent_existing (src dst n : string) (w : World) (d : Bucket) :
  lookup_bucket dst (buckets w) = Some d ->
  has_object n d = true ->
  exists e cf,
    copyIfAbsent src dst n w
    = (Ok (Some e),
       mkWorld (images w) (dbFaults w) (buckets w) cf (listFaults w)
               (trace w ++ [EvCopy src dst n])).
Proof.
  intros Hd Hn.
  unfold copyIfAbsent, popCopyFault. run.
  destruct w as [img fl bs cf lf tr]; simpl in *.
  destruct cf as [|[e|] cf]; simpl;
    try (do 2 eexists; reflexivity);
    rewrite Hd;
    (destruct (lookup_bucket src bs) as [s0|];
     [destruct (find_object n s0) as [o|]; [rewrite Hn|]|];
     do 2 eexists; reflexivity).
Qed.

(** A copy succeeds when no fault is scripted for it, the source holds
    the object and the destination does not. *)
Lemma copyIfAbsent_fresh (src dst n : string) (w : World) (s d : Bucket)
      (o : ObjectAttrs) :
  hd None (copyFaults w) = None ->
  lookup_bucket src (buckets w) = Some s ->
  find_object n s = Some o ->
  lookup_bucket dst (buckets w) = Some d ->
  has_object n d = false ->
  copyIfAbsent src dst n w
  = (Ok None,
     mkWorld (images w) (dbFaults w)
             (update_bucket dst (d ++ [o])%list (buckets w))
             (tl (copyFaults w)) (listFaults w)
             (trace w ++ [EvCopy src dst n])).
Proof.
  intros Hf Hs Ho Hd Hn.
  unfold copyIfAbsent, popCopyFault. run.
  destruct w as [img fl bs cf lf tr]; simpl in *.
  destruct cf as [|f cf]; simpl in *; subst; simpl;
    rewrite Hs, Hd, Ho, Hn; reflexivity.
Qed.

(** ** Per-object processing, path by path *)



Lemma processImage_skip (src dst : string) (a : ObjectAttrs) (w : World)
      (rows : list Row) :
  images w = Some rows ->
  healthy (dbFaults w) ->
  count_crc32 (CRC32C a) rows <> 0 ->
  processImage src dst (Some a) w
  = (Ok tt, add_events skip_events (after_insert a rows w)).
Proof.
  intros Himg Hh Hc.
  unfold processImage, bind at 1.
  rewrite (getImageCount_healthy _ _ _ Himg Hh).
  unfold bind at 1, log at 1, emit, modify, bind at 1. simpl.
  rewrite insertImage_healthy with (rows := rows);
    [| reflexivity | simpl; auto using healthy_tl3].
  apply Z.eqb_neq in Hc. rewrite Hc.
  unfold With, Inc, add_events, after_insert, row_of, tl6, tl3. run.
  rewrite <- !app_assoc. reflexivity.
Qed.

Lemma processImage_copy (src dst : string) (a : ObjectAttrs) (w : World)
      (rows : list Row) (s d : Bucket) (o : ObjectAttrs) :
  images w = Some rows ->
  healthy (dbFaults w) ->
  count_crc32 (CRC32C a) rows = 0 ->
  hd None (copyFaults w) = None ->
  lookup_bucket src (buckets w) = Some s ->
  find_object (Name a) s = Some o ->
  lookup_bucket dst (buckets w) = Some d ->
  has_object (Name a) d = false ->
  processImage src dst (Some a) w
  = (Ok tt,
     add_events (copy_events src dst a)
       (set_copyFaults (tl (copyFaults w))
          (set_buckets (update_bucket dst (d ++ [o])%list (buckets w))
             (after_insert a rows w)))).
Proof.
  intros Himg Hh Hc Hf Hs Ho Hd Hn.
  unfold processImage, bind at 1.
  rewrite (getImageCount_healthy _ _ _ Himg Hh).
  unfold bind at 1, log at 1, emit, modify, bind at 1. simpl.
  rewrite insertImage_healthy with (rows := rows);
    [| reflexivity | simpl; auto using healthy_tl3].
  rewrite Hc. simpl.
  unfold bind at 1, log at 1, emit, modify, bind at 1. simpl.
  unfold bind at 1, log at 1, emit, modify, bind at 1. simpl.
  rewrite copyIfAbsent_fresh with (s := s) (d := d) (o := o); try assumption.
  unfold With, Inc, add_events, after_insert, row_of, tl6, tl3. run.
  rewrite <- !app_assoc. reflexivity.
Qed.

Lemma processImage_copy_refused (src dst : string) (a : ObjectAttrs) (w : World)
      (rows : list Row) (d : Bucket) :
  images w = Some rows ->
  healthy (dbFaults w) ->
  count_crc32 (CRC32C a) rows = 0 ->
  lookup_bucket dst (buckets w) = Some d ->
  has_object (Name a) d = true ->
  exists cf,
    processImage src dst (Some a) w
    = (Ok tt,
       add_events (copy_error_events src dst a)
         (set_copyFaults cf (after_insert a rows w))).
Proof.
  intros Himg Hh Hc Hd Hn.
  unfold processImage, bind at 1.
  rewrite (getImageCount_healthy _ _ _ Himg Hh).
  unfold bind at 1, log at 1, emit, modify, bind at 1. simpl.
  rewrite insertImage_healthy with (rows := rows);
    [| reflexivity | simpl; auto using healthy_tl3].
  rewrite Hc. simpl.
  unfold bind at 1, log at 1, emit, modify, bind at 1. simpl.
  unfold bind at 1, log at 1, emit, modify, bind at 1. simpl.
  match goal with
  | |- context [copyIfAbsent ?s ?t ?n ?w0] =>
      destruct (copyIfAbsent_existing s t n w0 d Hd Hn) as (e & cf & Hcopy)
  end.
  exists cf. rewrite Hcopy.
  unfold With, Inc, add_events, after_insert, row_of, tl6, tl3. run.
  rewrite <- !app_assoc. reflexivity.
Qed.

Lemma has_name_insert_row (r : Row) (rows : list Row) :
  has_name (name r) (insert_row r rows) = true.
Proof.
  unfold insert_row. destruct (has_name (name r) rows) eqn:H; [exact H|].
  unfold has_name. rewrite existsb_app. simpl.
  rewrite String.eqb_refl. rewrite orb_true_r. reflexivity.
Qed.

(** ** Error paths of the per-object processing *)

Section ErrorPaths.

Variables src dst : string.
Variable a : ObjectAttrs.
Variable w : World.

(** When the count fails: an error log line, the error metric call with
    the status label alone, which the counter vector rejects, and
    nothing else but the count query itself. *)
Lemma processImage_count_fails (c : Z) (e : error) (w1 : World) :
  getImageCount (CRC32C a) w = (Ok (c, Some e), w1) ->
  exists w',
    processImage src dst (Some a) w
    = (Panic "inconsistent label cardinality", w')
    /\ images w' = images w
    /\ buckets w' = buckets w
    /\ trace w' = (trace w1 ++ [EvLog LError "failed to count existing image";
                               EvWith [("status", "error")]])%list
    /\ (trace w1 = trace w \/ trace w1 = (trace w ++ [EvCount (CRC32C a)])%list).
Proof.
  intros Hg.
  destruct (getImageCount_frame (CRC32C a) w)
    as (cnt & err & w1' & Hf & Hi & Hb & _ & _ & Ht & _).
  rewrite Hg in Hf. injection Hf as -> <- <-.
  unfold processImage, bind at 1. rewrite Hg.
  unfold With, Inc. run.
  eexists. split; [reflexivity|]. simpl.
  rewrite <- !app_assoc. auto.
Qed.

(** When the count succeeds and the insert fails: the error metric call
    with the status label alone right after the insert, which the
    counter vector rejects, and nothing else. *)
Lemma processImage_insert_fails (c : Z) (e : error) (w1 w2 : World) :
  getImageCount (CRC32C a) w = (Ok (c, None), w1) ->
  insertImage a (hd "" (strings_Split (Name a) "/"))
    (add_events [EvLog LDebug "count"] w1) = (Ok (Some e), w2) ->
  exists w',
    processImage src dst (Some a) w
    = (Panic "inconsistent label cardinality", w')
    /\ buckets w' = buckets w
    /\ trace w' = (trace w2 ++ [EvWith [("status", "error")]])%list
    /\ (trace w2 = (trace w ++ [EvCount (CRC32C a); EvLog LDebug "count"])%list
        \/ trace w2 = (trace w ++ [EvCount (CRC32C a); EvLog LDebug "count";
                                  EvInsert (row_of a)])%list).
Proof.
  intros Hg Hi.
  destruct (getImageCount_frame (CRC32C a) w)
    as (cnt & err & w1' & Hf & Him & Hb & _ & _ & _ & Hok).
  rewrite Hg in Hf. injection Hf as -> <- <-.
  destruct (Hok eq_refl) as (Ht1 & _).
  destruct (insertImage_frame a (hd "" (strings_Split (Name a) "/"))
              (add_events [EvLog LDebug "count"] w1))
    as (err & w2' & Hf & Hb2 & _ & _ & Ht2 & _ & _).
  rewrite Hi in Hf. injection Hf as <- <-.
  unfold processImage, bind at 1. rewrite Hg.
  unfold bind at 1, log at 1, emit, modify, bind at 1. simpl.
  unfold add_events in Hi. rewrite Hi.
  unfold With, Inc. run.
  eexists. split; [reflexivity|]. simpl.
  simpl in *. rewrite Ht1 in Ht2.
  rewrite <- !app_assoc in Ht2. simpl in Ht2.
  repeat split; auto; congruence.
Qed.

(** Whatever happens, a copy call in the trace of one pass comes after
    the insert of the object's row has been committed. *)
Lemma processImage_copy_after_insert (r : Result unit) (w' : World)
      (evs : list Event) :
  processImage src dst (Some a) w = (r, w') ->
  trace w' = (trace w ++ evs)%list ->
  existsb is_copy evs = true ->
  exists rows post,
    images w = Some rows
    /\ images w' = Some (insert_row (row_of a) rows)
    /\ evs = ([EvCount (CRC32C a); EvLog LDebug "count"; EvInsert (row_of a);
               EvLog LDebug "insert"; EvLog LDebug "init copy";
               EvCopy src dst (Name a)] ++ post)%list.
Proof.
  intros Hp Ht Hc.
  destruct (getImageCount_frame (CRC32C a) w)
    as (cnt & err & w1 & Hg & Him1 & Hb1 & _ & _ & Ht1 & Hok1).
  unfold processImage, bind at 1 in Hp. rewrite Hg in Hp.
  destruct err as [e|].
  { unfold With, Inc in Hp. run. simpl in Hp. injection Hp as <- <-.
    simpl in Ht. rewrite <- ?app_assoc in Ht.
    destruct Ht1 as [Ht1|Ht1]; rewrite Ht1 in Ht;
      rewrite <- ?app_assoc in Ht; apply app_inv_head in Ht;
      subst evs; discriminate. }
  destruct (Hok1 eq_refl) as (Ht1' & rows & Hrows & _). clear Ht1 Hok1.
  unfold bind at 1, log at 1, emit, modify, bind at 1 in Hp. simpl in Hp.
  match type of Hp with
  | context [insertImage a ?s0 ?w0] =>
      destruct (insertImage_frame a s0 w0)
        as (err & w2 & Hi & Hb2 & _ & _ & Ht2 & Hok2 & _)
  end.
  rewrite Hi in Hp. simpl in Ht2, Hok2.
  destruct err as [e|].
  { unfold With, Inc in Hp. run. simpl in Hp. injection Hp as <- <-.
    simpl in Ht. rewrite <- ?app_assoc in Ht.
    destruct Ht2 as [Ht2|Ht2]; rewrite Ht2, ?Ht1' in Ht; simpl in Ht;
      rewrite ?Ht1' in Ht;
      rewrite <- ?app_assoc in Ht; apply app_inv_head in Ht;
      subst evs; discriminate. }
  destruct (Hok2 eq_refl) as (Ht2' & rows' & Hrows' & Himg2). clear Ht2 Hok2.
  rewrite Him1, Hrows in Hrows'. injection Hrows' as <-.
  exists rows.
  unfold bind at 1, log at 1, emit, modify, bind at 1 in Hp. simpl in Hp.
  destruct (cnt =? 0).
  - unfold bind at 1, log at 1, emit, modify, bind at 1 in Hp. simpl in Hp.
    unfold bind at 1 in Hp.
    match type of Hp with
    | context [copyIfAbsent ?s0 ?d0 ?n0 ?w0] =>
        destruct (copyIfAbsent_frame s0 d0 n0 w0) as (err & bs & cf & Hcp & _)
    end.
    rewrite Hcp in Hp. simpl in Hp.
    destruct err as [e|]; unfold With, Inc in Hp; run; simpl in Hp;
      injection Hp as <- <-; simpl in Ht; rewrite Ht2', Ht1' in Ht;
      rewrite <- !app_assoc in Ht;
      apply app_inv_head in Ht; subst evs; simpl;
      eexists; (split; [exact Hrows | split; [exact Himg2 | reflexivity]]).
  - unfold With, Inc in Hp. run. simpl in Hp. injection Hp as <- <-.
    simpl in Ht. rewrite Ht2', Ht1' in Ht. rewrite <- !app_assoc in Ht.
    apply app_inv_head in Ht. subst evs. discriminate.
Qed.

End ErrorPaths.

(** ** The index as a table keyed by name *)

Lemma count_crc32_In (r : Row) (rows : list Row) :
  In r rows -> count_crc32 (crc32 r) rows <> 0.
Proof.
  intros Hin. unfold count_crc32.
  assert (Hf : In r (filter (fun r0 => crc32 r0 =? crc32 r) rows)).
  { apply filter_In. split; [assumption | apply Z.eqb_refl]. }
  destruct (filter (fun r0 => crc32 r0 =? crc32 r) rows); [destruct Hf|].
  simpl. lia.
Qed.

Lemma has_name_In (r : Row) (rows : list Row) :
  In r rows -> has_name (name r) rows = true.
Proof.
  intros Hin. unfold has_name. apply existsb_exists.
  exists r. split; [assumption | apply String.eqb_refl].
Qed.

Lemma count_crc32_insert_row (r : Row) (rows : list Row) :
  has_name (name r) rows = false ->
  count_crc32 (crc32 r) (insert_row r rows) <> 0.
Proof.
  intros Hn. apply count_crc32_In. unfold insert_row. rewrite Hn.
  apply in_or_app. right. left. reflexivity.
Qed.

Lemma NoDup_snoc {A} (x : A) (l : list A) :
  NoDup l -> ~ In x l -> NoDup (l ++ [x]).
Proof.
  induction 1 as [|y l Hy Hnd IH]; intros Hx; simpl.
  - constructor; [intros [] | constructor].
  - constructor.
    + intros Hin. apply in_app_or in Hin. destruct Hin as [Hin|[Hin|[]]].
      * contradiction.
      * apply Hx. left. symmetry. exact Hin.
    + apply IH. intros Hin. apply Hx. right. exact Hin.
Qed.

(** The primary key: [insert_row] never makes two rows of one name. *)
Lemma insert_row_NoDup (r : Row) (rows : list Row) :
  NoDup (map name rows) -> NoDup (map name (insert_row r rows)).
Proof.
  intros Hnd. unfold insert_row.
  destruct (has_name (name r) rows) eqn:Hn; [assumption|].
  rewrite map_app. simpl. apply NoDup_snoc; [assumption|].
  intros Hin. apply in_map_iff in Hin. destruct Hin as (r0 & Hr0 & Hin).
  assert (has_name (name r) rows = true).
  { unfold has_name. apply existsb_exists. exists r0. split; [assumption|].
    rewrite Hr0. apply String.eqb_refl. }
  congruence.
Qed.

(** ** C6 *)

(** C6, at the failing inputs, and what holds of it.  When the
    fingerprint count fails, the pass writes the error log line and
    hands the counter vector the status label alone; the vector rejects
    it and the pass panics: nothing is counted, and neither the insert
    nor a copy is issued, table and store being as they were.  When the
    count succeeds and the insert fails, the same call panics before the
    error is logged: nothing is counted, no copy is issued and the store
    is as it was.  And whenever one pass issues a copy, the insert of
    the object's row was committed before it. *)
Theorem C6_failed_index_operation (src dst : string) (a : ObjectAttrs) (w : World) :
  (forall c e w1,
      getImageCount (CRC32C a) w = (Ok (c, Some e), w1) ->
      exists w' evs,
        processImage src dst (Some a) w
        = (Panic "inconsistent label cardinality", w')
        /\ trace w' = (trace w ++ evs)%list
        /\ images w' = images w /\ buckets w' = buckets w
        /\ In (EvLog LError "failed to count existing image") evs
        /\ In (EvWith [("status", "error")]) evs
        /\ increments evs = []
        /\ inserted evs = [] /\ existsb is_copy evs = false)
  /\ (forall c e w1 w2,
      getImageCount (CRC32C a) w = (Ok (c, None), w1) ->
      insertImage a (hd "" (strings_Split (Name a) "/"))
        (add_events [EvLog LDebug "count"] w1) = (Ok (Some e), w2) ->
      exists w' evs,
        processImage src dst (Some a) w
        = (Panic "inconsistent label cardinality", w')
        /\ trace w' = (trace w ++ evs)%list
        /\ buckets w' = buckets w
        /\ In (EvWith [("status", "error")]) evs
        /\ increments evs = []
        /\ ~ In (EvLog LError "failed to insert image") evs
        /\ existsb is_copy evs = false)
  /\ (forall r w' evs,
      processImage src dst (Some a) w = (r, w') ->
      trace w' = (trace w ++ evs)%list ->
      existsb is_copy evs = true ->
      exists rows post,
        images w = Some rows
        /\ images w' = Some (insert_row (row_of a) rows)
        /\ has_name (Name a) (insert_row (row_of a) rows) = true
        /\ evs = ([EvCount (CRC32C a); EvLog LDebug "count";
                   EvInsert (row_of a); EvLog LDebug "insert";
                   EvLog LDebug "init copy"; EvCopy src dst (Name a)]
                  ++ post)%list).
Proof.
  split; [|split].
  - intros c e w1 Hg.
    destruct (processImage_count_fails src dst a w c e w1 Hg)
      as (w' & Hp & Hi & Hb & Ht & [Ht1|Ht1]);
      rewrite Ht1 in Ht; rewrite <- ?app_assoc in Ht;
      exists w'; eexists;
      (split; [exact Hp|]); (split; [exact Ht|]);
      repeat split; try assumption; simpl; auto.
  - intros c e w1 w2 Hg Hi.
    destruct (processImage_insert_fails src dst a w c e w1 w2 Hg Hi)
      as (w' & Hp & Hb & Ht & [Ht2|Ht2]);
      rewrite Ht2 in Ht; rewrite <- ?app_assoc in Ht;
      exists w'; eexists;
      (split; [exact Hp|]); (split; [exact Ht|]);
      (split; [exact Hb|]); simpl;
      (split; [auto 10|]); (split; [reflexivity|]);
      (split; [|reflexivity]);
      intros H; repeat (destruct H as [H|H]; [discriminate|]); exact H.
  - intros r w' evs Hp Ht Hc.
    destruct (processImage_copy_after_insert src dst a w r w' evs Hp Ht Hc)
      as (rows & post & H1 & H2 & H3).
    exists rows, post. repeat split; try assumption.
    apply (has_name_insert_row (row_of a)).
Qed.

Lemma C6_failed_index_operation_witness :
  (exists w',
      processImage "src" "dst" (Some img1_1) world_count_fails
      = (Panic "inconsistent label cardinality", w')
      /\ increments (trace w') = []
      /\ inserted (trace w') = [] /\ existsb is_copy (trace w') = false)
  /\ (exists w',
      processImage "src" "dst" (Some img1_1) world_insert_fails
      = (Panic "inconsistent label cardinality", w')
      /\ increments (trace w') = []
      /\ existsb is_copy (trace w') = false)
  /\ (exists rows, images (snd (processImage "src" "dst" (Some img1_1) sample_world))
                   = Some rows
                   /\ has_name (Name img1_1) rows = true).
Proof.
  split; [|split].
  - destruct (proj1 (C6_failed_index_operation "src" "dst" img1_1
                       world_count_fails)
                    0 (OtherError "connection reset") _ eq_refl)
      as (w' & evs & Hp & Ht & _ & _ & _ & _ & Hinc & Hi & Hc).
    simpl in Ht. rewrite <- Ht in Hinc, Hi, Hc.
    exists w'. repeat split; assumption.
  - destruct (proj1 (proj2 (C6_failed_index_operation "src" "dst" img1_1
                              world_insert_fails))
                    0 (OtherError "connection reset") _ _ eq_refl eq_refl)
      as (w' & evs & Hp & Ht & _ & _ & Hinc & _ & Hc).
    simpl in Ht. rewrite <- Ht in Hinc, Hc.
    exists w'. repeat split; assumption.
  - destruct (proj2 (proj2 (C6_failed_index_operation "src" "dst" img1_1
                              sample_world))
                    _ _ _ eq_refl eq_refl eq_refl)
      as (rows & post & _ & Hi & Hn & _).
    exists (insert_row (row_of img1_1) rows). split; assumption.
Defined.

(** ** C1 *)

(** C1, as stated, fails: with a fingerprint count of 0 and the
    destination object already there, the refused copy is counted with
    the labels status=error, operation=copy, and no success is
    reported. *)
Lemma C1_refused_copy_is_counted_as_error :
  count_crc32 (CRC32C img1_1) [] = 0
  /\ has_object (Name img1_1) [img1_1] = true
  /\ fst (processImage "src" "dst" (Some img1_1) world_with_existing_destination)
     = Ok tt
  /\ filter is_copy
       (trace (snd (processImage "src" "dst" (Some img1_1)
                      world_with_existing_destination)))
     = [EvCopy "src" "dst" "A/1/1_1.jpg"]
  /\ filter is_inc
       (trace (snd (processImage "src" "dst" (Some img1_1)
                      world_with_existing_destination)))
     = [EvInc [("status", "error"); ("operation", "copy")]]
  /\ outcomes
       (trace (snd (processImage "src" "dst" (Some img1_1)
                      world_with_existing_destination)))
     = [OutcomeError].
Proof. vm_compute. repeat split; reflexivity. Qed.

(** C1, amended. When the count is 0, so that the conditional copy is
    attempted, and the destination bucket already holds an object of
    that name, the copy is refused and the object is counted as an
    error with the labels status=error, operation=copy, like any other
    copy failure; the store is left as it was. *)
Theorem C1_refused_copy_outcome (src dst : string) (a : ObjectAttrs) (w : World)
        (rows : list Row) (d : Bucket) :
  images w = Some rows ->
  healthy (dbFaults w) ->
  count_crc32 (CRC32C a) rows = 0 ->
  lookup_bucket dst (buckets w) = Some d ->
  has_object (Name a) d = true ->
  exists w',
    processImage src dst (Some a) w = (Ok tt, w')
    /\ buckets w' = buckets w
    /\ trace w' = (trace w
                   ++ [EvCount (CRC32C a); EvLog LDebug "count";
                       EvInsert (row_of a); EvLog LDebug "insert";
                       EvLog LDebug "init copy"; EvCopy src dst (Name a);
                       EvLog LError "copy";
                       EvWith [("status", "error"); ("operation", "copy")];
                       EvInc [("status", "error"); ("operation", "copy")]])%list
    /\ outcomes (new_events w w') = [OutcomeError].
Proof.
  intros Himg Hh Hc Hd Hn.
  destruct (processImage_copy_refused src dst a w rows d Himg Hh Hc Hd Hn)
    as (cf & Hp).
  eexists. split; [exact Hp|].
  assert (Ht : trace (add_events (copy_error_events src dst a)
                        (set_copyFaults cf (after_insert a rows w)))
               = (trace w
                   ++ [EvCount (CRC32C a); EvLog LDebug "count";
                       EvInsert (row_of a); EvLog LDebug "insert";
                       EvLog LDebug "init copy"; EvCopy src dst (Name a);
                       EvLog LError "copy";
                       EvWith [("status", "error"); ("operation", "copy")];
                       EvInc [("status", "error"); ("operation", "copy")]])%list).
  { simpl. rewrite <- app_assoc. reflexivity. }
  split; [reflexivity|]. split; [exact Ht|].
  unfold new_events. rewrite Ht.
  rewrite skipn_app, skipn_all, Nat.sub_diag. reflexivity.
Qed.

Lemma C1_refused_copy_outcome_witness :
  exists w',
    processImage "src" "dst" (Some img1_1) world_with_existing_destination
    = (Ok tt, w')
    /\ buckets w' = buckets world_with_existing_destination
    /\ outcomes (new_events world_with_existing_destination w') = [OutcomeError].
Proof.
  destruct (C1_refused_copy_outcome "src" "dst" img1_1
              world_with_existing_destination [] [img1_1]
              eq_refl (Forall_nil _) eq_refl eq_refl eq_refl)
    as (w' & Hp & Hb & _ & Ho).
  exists w'. repeat split; assumption.
Defined.

(** ** C3 *)

(** C3, at the failing inputs: on the count-failure and on the
    insert-failure path the labels handed to the counter vector hold the
    status only, which the vector, declared with status and operation,
    rejects; no increment follows. *)
Theorem C3_error_paths_pass_status_only :
  variableLabels = ["status"; "operation"]
  /\ labelsValid [("status", "error")] = false
  /\ processImage "src" "dst" (Some img1_1) world_count_fails
     = (Panic "inconsistent label cardinality",
        mkWorld (Some []) [] sample_buckets [] []
                [EvCount 2784486622;
                 EvLog LError "failed to count existing image";
                 EvWith [("status", "error")]])
  /\ processImage "src" "dst" (Some img1_1) world_insert_fails
     = (Panic "inconsistent label cardinality",
        mkWorld (Some []) [] sample_buckets [] []
                [EvCount 2784486622; EvLog LDebug "count";
                 EvInsert (row_of img1_1);
                 EvWith [("status", "error")]]).
Proof. vm_compute. repeat split; reflexivity. Qed.

(** ** C8 *)

(** C8, as stated, fails.  The table holds a row of the object's name
    with another fingerprint, and the index operations succeed.  The
    first pass over the object inserts nothing, counts 0 and copies; the
    second pass over the same name, the insert of the first being
    durable, still counts 0 and requests the copy again, which is
    refused and counted as an error: no Success-Skip, two copy calls. *)
Lemma C8_known_name_new_fingerprint :
  has_name (Name img1_1) [mkRow "A/1/1_1.jpg" "A" "A/1" 200000 1234567] = true
  /\ fst (processImage "src" "dst" (Some img1_1) world_stale_row) = Ok tt
  /\ images (snd (processImage "src" "dst" (Some img1_1) world_stale_row))
     = images world_stale_row
  /\ fst (processAll "src" "dst" [img1_1; img1_1] world_stale_row) = Ok tt
  /\ counted (trace (snd (processAll "src" "dst" [img1_1; img1_1]
                            world_stale_row)))
     = [CRC32C img1_1; CRC32C img1_1]
  /\ count_crc32 (CRC32C img1_1)
       [mkRow "A/1/1_1.jpg" "A" "A/1" 200000 1234567] = 0
  /\ filter is_copy (trace (snd (processAll "src" "dst" [img1_1; img1_1]
                                   world_stale_row)))
     = [EvCopy "src" "dst" "A/1/1_1.jpg"; EvCopy "src" "dst" "A/1/1_1.jpg"]
  /\ outcomes (trace (snd (processAll "src" "dst" [img1_1; img1_1]
                             world_stale_row)))
     = [SuccessCopy; OutcomeError].
Proof. vm_compute. repeat split; reflexivity. Qed.

(** C8, amended. Processing an object whose row, of the same name and
    the same fingerprint, is already in the index, with the index
    operations succeeding: the insert leaves the table as it is, the
    count is at least 1, no copy is issued, the store is untouched and
    the reported outcome is Success-Skip. *)
Theorem C8_reprocessing_is_idempotent (src dst : string) (a : ObjectAttrs)
        (w : World) (rows : list Row) (r : Row) :
  images w = Some rows ->
  In r rows ->
  name r = Name a ->
  crc32 r = CRC32C a ->
  healthy (dbFaults w) ->
  exists w',
    processImage src dst (Some a) w = (Ok tt, w')
    /\ 1 <= count_crc32 (CRC32C a) rows
    /\ images w' = Some rows
    /\ buckets w' = buckets w
    /\ filter is_copy (new_events w w') = []
    /\ outcomes (new_events w w') = [SuccessSkip]
    /\ filter is_inc (new_events w w')
       = [EvInc [("status", "success"); ("operation", "skip")]].
Proof.
  intros Himg Hin Hname Hcrc Hh.
  assert (Hc : count_crc32 (CRC32C a) rows <> 0).
  { rewrite <- Hcrc. apply count_crc32_In. exact Hin. }
  assert (Hnoop : insert_row (row_of a) rows = rows).
  { unfold insert_row. simpl. rewrite <- Hname.
    rewrite (has_name_In r rows Hin). reflexivity. }
  eexists. split; [apply (processImage_skip src dst a w rows Himg Hh Hc)|].
  split. { unfold count_crc32 in *. lia. }
  split. { simpl. rewrite Hnoop. reflexivity. }
  split; [reflexivity|].
  unfold new_events. simpl.
  rewrite <- app_assoc, skipn_app, skipn_all, Nat.sub_diag. simpl.
  repeat split; reflexivity.
Qed.

Lemma C8_reprocessing_is_idempotent_witness :
  exists w',
    processImage "src" "dst" (Some img1_1) world_after_first_pass = (Ok tt, w')
    /\ images w' = images world_after_first_pass
    /\ buckets w' = buckets world_after_first_pass
    /\ outcomes (new_events world_after_first_pass w') = [SuccessSkip].
Proof.
  destruct (C8_reprocessing_is_idempotent "src" "dst" img1_1
              world_after_first_pass [row_of img1_1] (row_of img1_1)
              eq_refl (or_introl eq_refl) eq_refl eq_refl (Forall_nil _))
    as (w' & Hp & _ & Hi & Hb & _ & Ho & _).
  exists w'. repeat split; assumption.
Defined.

(** ** C7 *)

(** C7, as stated, fails.  The two objects have equal fingerprints and
    distinct names, the index holds neither, all index operations
    succeed; yet when the index holds another object of that fingerprint
    both are skipped, and when the destination already holds the first
    name the first is counted as an error: no Success-Copy in either
    run. *)
Lemma C7_not_always_one_copy :
  CRC32C img1_2 = CRC32C img2_1
  /\ Name img1_2 <> Name img2_1
  /\ has_name (Name img1_2) [row_of img3_1] = false
  /\ has_name (Name img2_1) [row_of img3_1] = false
  /\ fst (processAll "src" "dst" [img1_2; img2_1] world_fingerprint_known) = Ok tt
  /\ outcomes (trace (snd (processAll "src" "dst" [img1_2; img2_1]
                             world_fingerprint_known)))
     = [SuccessSkip; SuccessSkip]
  /\ fst (processAll "src" "dst" [img1_2; img2_1] world_destination_taken) = Ok tt
  /\ outcomes (trace (snd (processAll "src" "dst" [img1_2; img2_1]
                             world_destination_taken)))
     = [OutcomeError; SuccessSkip].
Proof.
  split; [reflexivity|]. split; [discriminate|].
  vm_compute. repeat split; reflexivity.
Qed.

Lemma has_name_app (n : string) (l1 l2 : list Row) :
  has_name n (l1 ++ l2) = has_name n l1 || has_name n l2.
Proof. unfold has_name. apply existsb_app. Qed.

(** C7, amended. Two objects of equal fingerprint and distinct names,
    an index that holds neither name and no row of that fingerprint,
    the index operations succeeding, and the conditional copy of the
    first going through (no fault, the source holds it, the destination
    does not): processing the first and then the second reports exactly
    Success-Copy and then Success-Skip, issues the one copy of the
    first, and records both rows. *)
Theorem C7_first_copied_second_skipped (src dst : string) (A B : ObjectAttrs)
        (w : World) (rows : list Row) (s d : Bucket) (o : ObjectAttrs) :
  CRC32C A = CRC32C B ->
  Name A <> Name B ->
  images w = Some rows ->
  has_name (Name A) rows = false ->
  has_name (Name B) rows = false ->
  count_crc32 (CRC32C A) rows = 0 ->
  healthy (dbFaults w) ->
  hd None (copyFaults w) = None ->
  lookup_bucket src (buckets w) = Some s ->
  find_object (Name A) s = Some o ->
  lookup_bucket dst (buckets w) = Some d ->
  has_object (Name A) d = false ->
  exists w',
    processAll src dst [A; B] w = (Ok tt, w')
    /\ outcomes (new_events w w') = [SuccessCopy; SuccessSkip]
    /\ filter is_copy (new_events w w') = [EvCopy src dst (Name A)]
    /\ images w' = Some (rows ++ [row_of A; row_of B])%list
    /\ buckets w' = update_bucket dst (d ++ [o])%list (buckets w).
Proof.
  intros Hcrc Hne Himg HnA HnB Hc Hh Hf Hs Ho Hd Hn.
  assert (HrowsA : insert_row (row_of A) rows = (rows ++ [row_of A])%list).
  { unfold insert_row. simpl. rewrite HnA. reflexivity. }
  assert (HrowsB : insert_row (row_of B) (rows ++ [row_of A])
                   = (rows ++ [row_of A; row_of B])%list).
  { unfold insert_row. simpl. rewrite has_name_app, HnB. simpl.
    destruct (String.eqb_spec (Name A) (Name B)) as [E|_]; [contradiction|].
    simpl. rewrite <- app_assoc. reflexivity. }
  assert (HcB : count_crc32 (CRC32C B) (rows ++ [row_of A]) <> 0).
  { rewrite <- Hcrc, <- HrowsA.
    apply (count_crc32_insert_row (row_of A)). exact HnA. }
  unfold processAll, bind at 1.
  rewrite (processImage_copy src dst A w rows s d o Himg Hh Hc Hf Hs Ho Hd Hn).
  unfold bind at 1.
  rewrite processImage_skip with (rows := (rows ++ [row_of A])%list);
    [ | simpl; rewrite HrowsA; reflexivity
      | simpl; apply healthy_tl6; exact Hh
      | exact HcB ].
  eexists. split; [reflexivity|].
  unfold new_events. simpl.
  rewrite HrowsB.
  rewrite <- !app_assoc, skipn_app, skipn_all, Nat.sub_diag. simpl.
  repeat split; reflexivity.
Qed.

Lemma C7_first_copied_second_skipped_witness :
  exists w',
    processAll "src" "dst" [img1_2; img2_1] sample_world = (Ok tt, w')
    /\ outcomes (new_events sample_world w') = [SuccessCopy; SuccessSkip]
    /\ filter is_copy (new_events sample_world w')
       = [EvCopy "src" "dst" "A/1/1_2.jpg"].
Proof.
  destruct (C7_first_copied_second_skipped "src" "dst" img1_2 img2_1
              sample_world [] [img1_1; img1_2; img2_1] [] img1_2
              eq_refl ltac:(discriminate) eq_refl eq_refl eq_refl eq_refl
              (Forall_nil _) eq_refl eq_refl eq_refl eq_refl eq_refl)
    as (w' & Hp & Ho & Hc & _).
  exists w'. repeat split; assumption.
Defined.

(** ** Start-up *)

Ltac frame_done :=
  do 2 eexists; (split; [reflexivity|]); simpl;
  (split; [reflexivity|]); (split; [congruence|]);
  first [ exists []; split; [symmetry; apply app_nil_r | reflexivity]
        | eexists; split; [rewrite <- ?app_assoc; reflexivity | reflexivity] ].

(** The schema transaction never panics, never touches the store,
    processes no object, and leaves the table as it was when it
    fails. *)
Lemma initTable_frame (w : World) :
  exists err w',
    ExecuteTx tt initTable w = (Ok (tt, err), w')
    /\ buckets w' = buckets w
    /\ (err <> None -> images w' = images w)
    /\ exists evs,
        trace w' = (trace w ++ evs)%list /\ filter is_processing evs = [].
Proof.
  unfold ExecuteTx, initTable, exec_createTable, popDbFault. run.
  destruct w as [img fl bs cf lf tr]; simpl.
  destruct fl as [|[e1|] fl]; simpl.
  - destruct img; simpl; frame_done.
  - frame_done.
  - destruct fl as [|[e|] fl]; simpl;
      [ destruct img; simpl; frame_done
      | destruct e as [code| | | | |msg]; simpl;
        try destruct (String.eqb code "42P07"); simpl;
        try (destruct fl as [|[e'|] fl]; simpl); frame_done
      | destruct img; simpl; destruct fl as [|[e'|] fl]; simpl; frame_done ].
Qed.

(** With a healthy database the schema transaction succeeds and the
    table exists afterwards. *)
Lemma initTable_healthy (w : World) :
  healthy (dbFaults w) ->
  ExecuteTx tt initTable w
  = (Ok (tt, None),
     mkWorld (Some (match images w with Some rows => rows | None => [] end))
             (tl3 (dbFaults w)) (buckets w) (copyFaults w) (listFaults w)
             (trace w ++ [EvLog LInfo "creating image table"; EvCreateTable;
                          EvLog LInfo "image table created"])).
Proof.
  intros Hh.
  unfold ExecuteTx, initTable, exec_createTable, popDbFault. run.
  destruct w as [img fl bs cf lf tr]; simpl in *.
  destruct fl as [|f1 [|f2 [|f3 fl]]]; inv_healthy; simpl;
    destruct img; simpl; rewrite <- !app_assoc; reflexivity.
Qed.

(** [Start], split at the schema transaction. *)
Lemma Start_unfold (m : Machine) :
  Start m
  = match ExecuteTx tt initTable (add_events startup_events (world m)) with
    | (Ok (_, Some e), w1) => (Ok (Some e), mkMachine (self m) w1 (stopAfter m))
    | (Ok (_, None), w1) =>
        (loop (SrcBucketName (self m)) (DstBucketName (self m))
              (sourceIterator m) 0 ;;
         ret None)
          (mkMachine (set_Ready true (self m))
                     (add_events [EvLog LInfo "service ready"] w1)
                     (stopAfter m))
    | (Panic msg, w1) => (Panic msg, mkMachine (self m) w1 (stopAfter m))
    end.
Proof.
  destruct m as [svc [img fl bs cf lf tr] k].
  unfold Start, sourceIterator, liftW, Objects, add_events, startup_events. run.
  rewrite <- !app_assoc. simpl.
  destruct (lookup_bucket (SrcBucketName svc) bs); simpl;
    match goal with
    | |- context [ExecuteTx tt initTable ?w0] =>
        destruct (ExecuteTx tt initTable w0) as [[[[] [e|]]|msg] w1]
    end; reflexivity.
Qed.

Lemma filter_is_processing_app (l1 l2 : list Event) :
  filter is_processing l1 = [] ->
  filter is_processing l2 = [] ->
  filter is_processing (l1 ++ l2) = [].
Proof. intros H1 H2. rewrite filter_app, H1, H2. reflexivity. Qed.

(** ** C9 *)

(** C9. For a freshly constructed service: when the schema transaction
    fails, [Start] returns that error, the readiness flag is still
    false and the health probe answers not-ready, no object has been
    fetched, counted, inserted or copied, and table and store are as
    they were; and whenever the flag is true after [Start], the schema
    transaction had succeeded. *)
Theorem C9_failed_initialization (o : SvcOptions) (m : Machine) :
  self m = NewSvc o ->
  (forall e w1,
      ExecuteTx tt initTable (add_events startup_events (world m))
      = (Ok (tt, Some e), w1) ->
      exists m',
        Start m = (Ok (Some e), m')
        /\ IsReady (self m') = false
        /\ health (self m') = (500, "not ready")
        /\ images (world m') = images (world m)
        /\ buckets (world m') = buckets (world m)
        /\ filter is_processing (new_events (world m) (world m')) = [])
  /\ (forall r m',
      Start m = (r, m') ->
      IsReady (self m') = true ->
      exists w1,
        ExecuteTx tt initTable (add_events startup_events (world m))
        = (Ok (tt, None), w1)).
Proof.
  intros Hself. split.
  - intros e w1 Hinit.
    destruct (initTable_frame (add_events startup_events (world m)))
      as (err & w1' & Hf & Hb & Hfail & evs & Ht & Hevs).
    rewrite Hinit in Hf. injection Hf as <- <-.
    eexists. split; [rewrite Start_unfold, Hinit; reflexivity|].
    simpl. rewrite Hself. simpl.
    repeat split; auto.
    + rewrite Hfail by discriminate. reflexivity.
    + unfold new_events. rewrite Ht. simpl.
      rewrite <- app_assoc, skipn_app, skipn_all, Nat.sub_diag. simpl.
      exact Hevs.
  - intros r m' Hs Hready.
    rewrite Start_unfold in Hs.
    destruct (initTable_frame (add_events startup_events (world m)))
      as (err & w1 & Hf & _).
    rewrite Hf in Hs. destruct err as [e|].
    + injection Hs as <- <-. simpl in Hready. rewrite Hself in Hready.
      discriminate.
    + exists w1. exact Hf.
Qed.

Lemma C9_failed_initialization_witness :
  exists m',
    Start machine_database_down = (Ok (Some (PgError "57P03")), m')
    /\ IsReady (self m') = false
    /\ health (self m') = (500, "not ready")
    /\ images (world m') = None
    /\ buckets (world m') = sample_buckets.
Proof.
  destruct (proj1 (C9_failed_initialization (mkOpts 0 "" "src" "dst")
                     machine_database_down eq_refl)
                  (PgError "57P03") _ eq_refl)
    as (m' & Hs & Hr & Hh & Hi & Hb & _).
  exists m'. repeat split; assumption.
Defined.

(** ** C2 *)

(** C2, at the failing inputs: when the limit is not reached and [Next]
    returns an error other than [iterator.Done], the loop logs it and
    goes on to call
    [processImage] with the nil attributes, which panics; nothing is
    skipped and the loop does not continue. *)
Theorem C2_listing_error_is_processed (src dst : string) (e : error)
        (rest : ObjectIterator) (idx : Z) (m : Machine) :
  e <> IteratorDone ->
  stopAfter m = None ->
  Ready (self m) = true ->
  negb (Limit (self m) =? 0) && (wrap64 (idx + 1) >? Limit (self m)) = false ->
  fst (Next (Fail e :: rest)) = (None, Some e)
  /\ processImage src dst None
     = panic "invalid memory address or nil pointer dereference"
  /\ loop src dst (Fail e :: rest) idx m
     = (Panic "invalid memory address or nil pointer dereference",
        mkMachine (self m)
                  (add_events [EvNext;
                               EvLog LError "failed to get next bucket object"]
                              (world m))
                  None).
Proof.
  intros He Hstop Hready Hlimit.
  split; [reflexivity|]. split; [reflexivity|].
  destruct m as [svc w k]. simpl in *. subst k.
  unfold loop, signalHandler, liftW. run.
  rewrite Hready, Hlimit.
  destruct e; try contradiction; simpl;
    rewrite <- !app_assoc; reflexivity.
Qed.

Lemma C2_listing_error_is_processed_witness :
  loop "src" "dst" (sourceIterator machine_listing_fails) 0
       (mkMachine (set_Ready true (self machine_listing_fails))
                  (world machine_listing_fails) None)
  = (Panic "invalid memory address or nil pointer dereference",
     mkMachine (set_Ready true (self machine_listing_fails))
               (add_events [EvNext;
                            EvLog LError "failed to get next bucket object"]
                           (world machine_listing_fails))
               None).
Proof.
  exact (proj2 (proj2
    (C2_listing_error_is_processed "src" "dst"
       (OtherError "backend unavailable")
       (map Item [img1_1; img1_2; img2_1]) 0
       (mkMachine (set_Ready true (self machine_listing_fails))
                  (world machine_listing_fails) None)
       ltac:(discriminate) eq_refl eq_refl eq_refl))).
Defined.

(** The whole run on that input: [Start] panics before any object is
    processed. *)
Example Start_listing_fails :
  fst (Start machine_listing_fails)
  = Panic "invalid memory address or nil pointer dereference"
  /\ filter is_count (trace (world (snd (Start machine_listing_fails)))) = [].
Proof. vm_compute. split; reflexivity. Qed.

(** ** C4 *)

(** C4, at the failing inputs: after the loop has ended on iterator
    exhaustion, and after it has ended on the limit, [Start] returns
    nil and the readiness flag is still true, so that the health probe
    still answers ready; only a call of [Stop] clears the flag. *)
Theorem C4_flag_stays_set_after_the_loop :
  (fst (Start machine_unlimited) = Ok None
   /\ IsReady (self (snd (Start machine_unlimited))) = true
   /\ health (self (snd (Start machine_unlimited))) = (200, "ready"))
  /\ (fst (Start machine_limit_1) = Ok None
      /\ In (EvLog LInfo "limit reached")
            (trace (world (snd (Start machine_limit_1))))
      /\ IsReady (self (snd (Start machine_limit_1))) = true)
  /\ (fst (Start machine_stopped_after_1) = Ok None
      /\ IsReady (self (snd (Start machine_stopped_after_1))) = false)
  /\ (forall m, IsReady (self (snd (Stop m))) = false).
Proof.
  split; [vm_compute; repeat split; reflexivity|].
  split; [vm_compute; repeat split; auto 20|].
  split; [vm_compute; repeat split; reflexivity|].
  intros m. reflexivity.
Qed.

(** ** The loop on a healthy run *)

Lemma counted_app t u : counted (t ++ u) = (counted t ++ counted u)%list.
Proof.
  induction t as [|e t IH]; simpl; [reflexivity|].
  destruct e; simpl; rewrite ?IH; reflexivity.
Qed.

Lemma wrap64_small (z : Z) : - 2 ^ 63 <= z < 2 ^ 63 -> wrap64 z = z.
Proof.
  intros H. unfold wrap64.
  rewrite Z.mod_small; lia.
Qed.

(** With a healthy database, one pass over an object returns, leaves the
    database healthy, and adds to the trace one count, one insert and
    one outcome, and no fetch. *)
Lemma processImage_healthy (src dst : string) (a : ObjectAttrs) (w : World)
      (rows : list Row) :
  images w = Some rows ->
  healthy (dbFaults w) ->
  exists w' evs,
    processImage src dst (Some a) w = (Ok tt, w')
    /\ images w' = Some (insert_row (row_of a) rows)
    /\ healthy (dbFaults w')
    /\ trace w' = (trace w ++ evs)%list
    /\ counted evs = [CRC32C a]
    /\ inserted evs = [row_of a]
    /\ length (outcomes evs) = 1%nat
    /\ filter is_next evs = [].
Proof.
  intros Himg Hh.
  destruct (Z.eq_dec (count_crc32 (CRC32C a) rows) 0) as [Hc|Hc].
  - unfold processImage, bind at 1.
    rewrite (getImageCount_healthy _ _ _ Himg Hh).
    unfold bind at 1, log at 1, emit, modify, bind at 1. simpl.
    rewrite insertImage_healthy with (rows := rows);
      [| reflexivity | simpl; auto using healthy_tl3].
    rewrite Hc. simpl.
    unfold bind at 1, log at 1, emit, modify, bind at 1. simpl.
    unfold bind at 1, log at 1, emit, modify, bind at 1. simpl.
    match goal with
    | |- context [copyIfAbsent ?s ?t ?n ?w0] =>
        destruct (copyIfAbsent_frame s t n w0) as (err & bs & cf & Hcopy & _)
    end.
    rewrite Hcopy.
    destruct err as [e|]; unfold With, Inc; run;
      do 2 eexists; (split; [reflexivity|]); simpl;
      rewrite <- !app_assoc; simpl;
      repeat split; auto using healthy_tl3.
  - eexists. exists ([EvCount (CRC32C a); EvLog LDebug "count";
                      EvInsert (row_of a); EvLog LDebug "insert"]
                     ++ skip_events)%list.
    split; [apply (processImage_skip src dst a w rows Himg Hh Hc)|].
    simpl. rewrite <- app_assoc.
    repeat split; auto using healthy_tl6.
Qed.

Section Loop.

Variables src dst : string.
Variable svc : ImgDeduper.
Hypothesis Hready : Ready svc = true.

Lemma loop_nil (idx : Z) (w : World) :
  loop src dst [] idx (mkMachine svc w None)
  = if negb (Limit svc =? 0) && (wrap64 (idx + 1) >? Limit svc)
    then (Ok tt, mkMachine svc (add_events [EvLog LInfo "limit reached"] w) None)
    else (Ok tt, mkMachine svc (add_events [EvNext] w) None).
Proof.
  unfold loop, signalHandler, liftW. run. rewrite Hready.
  destruct (negb (Limit svc =? 0) && (wrap64 (idx + 1) >? Limit svc));
    reflexivity.
Qed.

Lemma loop_item (a : ObjectAttrs) (b : ObjectIterator) (idx : Z) (w : World) :
  loop src dst (Item a :: b) idx (mkMachine svc w None)
  = if negb (Limit svc =? 0) && (wrap64 (idx + 1) >? Limit svc)
    then (Ok tt, mkMachine svc (add_events [EvLog LInfo "limit reached"] w) None)
    else match processImage src dst (Some a) (add_events [EvNext] w) with
         | (Ok _, w1) => loop src dst b (wrap64 (idx + 1)) (mkMachine svc w1 None)
         | (Panic msg, w1) => (Panic msg, mkMachine svc w1 None)
         end.
Proof.
  cbn [loop Next].
  generalize (processImage src dst (Some a)). intros P.
  unfold signalHandler, liftW. run. rewrite Hready.
  destruct (negb (Limit svc =? 0) && (wrap64 (idx + 1) >? Limit svc));
    [reflexivity|].
  unfold add_events, set_trace. simpl.
  match goal with
  | |- context [P ?w0] => destruct (P w0) as [[[]|msg] w1]
  end; reflexivity.
Qed.

Lemma loop_fail (e : error) (b : ObjectIterator) (idx : Z) (w : World) :
  loop src dst (Fail e :: b) idx (mkMachine svc w None)
  = if negb (Limit svc =? 0) && (wrap64 (idx + 1) >? Limit svc)
    then (Ok tt, mkMachine svc (add_events [EvLog LInfo "limit reached"] w) None)
    else match e with
         | IteratorDone => (Ok tt, mkMachine svc (add_events [EvNext] w) None)
         | _ => (Panic "invalid memory address or nil pointer dereference",
                 mkMachine svc
                   (add_events [EvNext;
                                EvLog LError "failed to get next bucket object"]
                               w)
                   None)
         end.
Proof.
  cbn [loop Next]. unfold signalHandler, liftW. run. rewrite Hready.
  destruct (negb (Limit svc =? 0) && (wrap64 (idx + 1) >? Limit svc));
    [reflexivity|].
  destruct e; simpl; unfold add_events, set_trace; simpl;
    rewrite <- ?app_assoc; reflexivity.
Qed.

(** Without a stop request the loop never touches the service object,
    however it ends. *)
Lemma loop_self (b : ObjectIterator) :
  forall (idx : Z) (w : World) (r : Result unit) (m' : Machine),
    loop src dst b idx (mkMachine svc w None) = (r, m') ->
    self m' = svc /\ stopAfter m' = None.
Proof.
  induction b as [|[a|e] b IH]; intros idx w r m' H.
  - rewrite loop_nil in H.
    destruct (negb (Limit svc =? 0) && (wrap64 (idx + 1) >? Limit svc));
      injection H as <- <-; auto.
  - rewrite loop_item in H.
    destruct (negb (Limit svc =? 0) && (wrap64 (idx + 1) >? Limit svc));
      [injection H as <- <-; auto|].
    destruct (processImage src dst (Some a) (add_events [EvNext] w))
      as [[[]|msg] w1]; [eapply IH; exact H | injection H as <- <-; auto].
  - rewrite loop_fail in H.
    destruct (negb (Limit svc =? 0) && (wrap64 (idx + 1) >? Limit svc));
      [injection H as <- <-; auto|].
    destruct e; injection H as <- <-; auto.
Qed.

(** The loop over a listing without faults, on a healthy database and
    without a stop request: it returns, and it has processed the objects
    the limit allows, in listing order, and no other. *)
Lemma loop_healthy (objs : list ObjectAttrs) :
  forall (idx : Z) (w : World) (rows : list Row),
    0 <= Limit svc ->
    0 <= idx ->
    idx + Z.of_nat (length objs) < max_int ->
    images w = Some rows ->
    healthy (dbFaults w) ->
    exists w' evs,
      loop src dst (map Item objs) idx (mkMachine svc w None)
      = (Ok tt, mkMachine svc w' None)
      /\ trace w' = (trace w ++ evs)%list
      /\ counted evs
         = map CRC32C (if Limit svc =? 0 then objs
                       else firstn (Z.to_nat (Limit svc - idx)) objs)
      /\ inserted evs
         = map row_of (if Limit svc =? 0 then objs
                       else firstn (Z.to_nat (Limit svc - idx)) objs)
      /\ length (outcomes evs)
         = length (if Limit svc =? 0 then objs
                   else firstn (Z.to_nat (Limit svc - idx)) objs).
Proof.
  induction objs as [|a objs IH]; intros idx w rows HN Hidx Hlen Himg Hh.
  - simpl map at 1. rewrite loop_nil.
    assert (Hnil : (if Limit svc =? 0 then @nil ObjectAttrs
                    else firstn (Z.to_nat (Limit svc - idx)) []) = []).
    { destruct (Limit svc =? 0); [reflexivity | apply firstn_nil]. }
    rewrite Hnil.
    destruct (negb (Limit svc =? 0) && (wrap64 (idx + 1) >? Limit svc));
      do 2 eexists; (split; [reflexivity|]); simpl; auto.
  - simpl map at 1. rewrite loop_item.
    simpl length in Hlen.
    assert (Hw : wrap64 (idx + 1) = idx + 1).
    { apply wrap64_small. unfold max_int in Hlen. lia. }
    rewrite Hw.
    destruct (Limit svc =? 0) eqn:HN0; simpl negb; cbv iota.
    + simpl andb. cbv iota.
      destruct (processImage_healthy src dst a (add_events [EvNext] w) rows
                  Himg Hh)
        as (w1 & evs1 & Hp & Himg1 & Hh1 & Ht1 & Hc1 & Hi1 & Ho1 & _).
      rewrite Hp.
      destruct (IH (idx + 1) w1 _ HN ltac:(lia) ltac:(lia) Himg1 Hh1)
        as (w' & evs & Hl & Ht & Hc & Hi & Ho).
      exists w', ([EvNext] ++ evs1 ++ evs)%list.
      split; [exact Hl|].
      split. { rewrite Ht, Ht1. simpl. rewrite <- !app_assoc. reflexivity. }
      simpl. rewrite counted_app, inserted_app, outcomes_app, length_app.
      rewrite Hc1, Hi1, Ho1, Hc, Hi, Ho. auto.
    + apply Z.eqb_neq in HN0. simpl andb.
      destruct (idx + 1 >? Limit svc) eqn:Hlim.
      * assert (Hz : Z.to_nat (Limit svc - idx) = 0%nat) by lia.
        rewrite Hz. simpl.
        do 2 eexists. split; [reflexivity|]. simpl. auto.
      * assert (Hz : Z.to_nat (Limit svc - idx)
                     = S (Z.to_nat (Limit svc - (idx + 1)))) by lia.
        rewrite Hz. simpl firstn.
        destruct (processImage_healthy src dst a (add_events [EvNext] w) rows
                    Himg Hh)
          as (w1 & evs1 & Hp & Himg1 & Hh1 & Ht1 & Hc1 & Hi1 & Ho1 & _).
        rewrite Hp.
        destruct (IH (idx + 1) w1 _ HN ltac:(lia) ltac:(lia) Himg1 Hh1)
          as (w' & evs & Hl & Ht & Hc & Hi & Ho).
        exists w', ([EvNext] ++ evs1 ++ evs)%list.
        split; [exact Hl|].
        split. { rewrite Ht, Ht1. simpl. rewrite <- !app_assoc. reflexivity. }
        simpl. rewrite counted_app, inserted_app, outcomes_app, length_app.
        rewrite Hc1, Hi1, Ho1, Hc, Hi, Ho. auto.
Qed.

End Loop.

(** Without a stop request, the readiness flag is set whenever [Start]
    returns nil: nothing but [Stop] clears it. *)
Lemma Start_leaves_flag_set (m : Machine) (m' : Machine) :
  stopAfter m = None ->
  Start m = (Ok None, m') ->
  IsReady (self m') = true.
Proof.
  intros Hstop Hs. rewrite Start_unfold, Hstop in Hs.
  destruct (initTable_frame (add_events startup_events (world m)))
    as (err & w1 & Hf & _).
  rewrite Hf in Hs. destruct err as [e|]; [discriminate|].
  unfold bind at 1 in Hs.
  match type of Hs with
  | context [loop ?s ?d ?b 0 (mkMachine ?svc ?w0 None)] =>
      destruct (loop s d b 0 (mkMachine svc w0 None)) as [r m1] eqn:Hl;
      destruct (loop_self s d svc eq_refl b 0 w0 r m1 Hl) as [Hself _]
  end.
  destruct r as [[]|msg]; [|discriminate].
  injection Hs as <-. rewrite Hself. reflexivity.
Qed.

(** ** C5 *)

(** C5. On a run without listing faults, database faults or stop
    request, with a limit of n >= 0 and fewer than [max_int] objects
    listed: [Start] returns nil having processed, in listing order,
    exactly the first n listed objects when n > 0 (all of them when
    fewer than n are listed), and every listed object when n = 0; each
    of them is counted, inserted and reported once, and no further
    object is touched. *)
Theorem C5_limit_enforced (m : Machine) (bucket : Bucket) :
  lookup_bucket (SrcBucketName (self m)) (buckets (world m)) = Some bucket ->
  listFaults (world m) = [] ->
  healthy (dbFaults (world m)) ->
  stopAfter m = None ->
  0 <= Limit (self m) ->
  Z.of_nat (length (listed (listQuery (self m)) bucket)) < max_int ->
  exists m',
    Start m = (Ok None, m')
    /\ counted (new_events (world m) (world m'))
       = map CRC32C (within_limit (Limit (self m))
                                  (listed (listQuery (self m)) bucket))
    /\ inserted (new_events (world m) (world m'))
       = map row_of (within_limit (Limit (self m))
                                  (listed (listQuery (self m)) bucket))
    /\ length (outcomes (new_events (world m) (world m')))
       = length (within_limit (Limit (self m))
                              (listed (listQuery (self m)) bucket))
    /\ (0 < Limit (self m) ->
        length (within_limit (Limit (self m))
                             (listed (listQuery (self m)) bucket))
        = Nat.min (Z.to_nat (Limit (self m)))
                  (length (listed (listQuery (self m)) bucket)))
    /\ (Limit (self m) = 0 ->
        within_limit (Limit (self m)) (listed (listQuery (self m)) bucket)
        = listed (listQuery (self m)) bucket).
Proof.
  intros Hsrc Hlf Hh Hstop HN Hlen.
  set (objs := listed (listQuery (self m)) bucket) in *.
  rewrite Start_unfold.
  rewrite initTable_healthy by exact Hh.
  assert (Hit : sourceIterator m = map Item objs).
  { unfold sourceIterator. rewrite Hsrc, Hlf. reflexivity. }
  rewrite Hit, Hstop.
  unfold bind at 1.
  match goal with
  | |- context [loop ?s ?d _ 0 (mkMachine ?svc ?w0 None)] =>
      destruct (loop_healthy s d svc eq_refl objs 0 w0
                  (match images (world m) with Some rows => rows | None => [] end)
                  HN ltac:(lia) ltac:(lia) eq_refl
                  ltac:(simpl; auto using healthy_tl3))
        as (w' & evs & Hl & Ht & Hc & Hi & Ho)
  end.
  rewrite Hl. simpl in Hc, Hi, Ho, Ht.
  replace (Limit (self m) - 0) with (Limit (self m)) in * by lia.
  fold (within_limit (Limit (self m)) objs) in Hc, Hi, Ho.
  eexists. split; [reflexivity|].
  unfold new_events. simpl. rewrite Ht.
  rewrite <- !app_assoc. rewrite skipn_app, skipn_all, Nat.sub_diag. simpl.
  split; [exact Hc|]. split; [exact Hi|]. split; [exact Ho|].
  split.
  - intros Hpos. unfold within_limit.
    destruct (Limit (self m) =? 0) eqn:E; [apply Z.eqb_eq in E; lia|].
    apply length_firstn.
  - intros H0. unfold within_limit. rewrite H0. reflexivity.
Qed.

Lemma C5_limit_enforced_witness :
  exists m',
    Start machine_limit_2 = (Ok None, m')
    /\ inserted (new_events (world machine_limit_2) (world m'))
       = [row_of img1_1; row_of img1_2]
    /\ length (outcomes (new_events (world machine_limit_2) (world m'))) = 2%nat.
Proof.
  destruct (C5_limit_enforced machine_limit_2 [img1_1; img1_2; img2_1]
              eq_refl eq_refl (Forall_nil _) eq_refl
              ltac:(vm_compute; discriminate) ltac:(vm_compute; reflexivity))
    as (m' & Hs & _ & Hi & Ho & _).
  exists m'. repeat split; assumption.
Defined.

(** ** Glob matching *)

Lemma glob_tokens_plain (p rest : string) :
  plain p = true ->
  glob_tokens (p ++ rest) = (literals p ++ glob_tokens rest)%list.
Proof.
  induction p as [|c p IH]; simpl; intros Hp; [reflexivity|].
  apply andb_true_iff in Hp. destruct Hp as [Hc Hp].
  unfold glob_meta in Hc. apply negb_true_iff in Hc.
  repeat (apply orb_false_iff in Hc; destruct Hc as [Hc ?]).
  rewrite Hc.
  match goal with H : Ascii.eqb c "?" = false |- _ => rewrite H end.
  rewrite (IH Hp). reflexivity.
Qed.

Lemma tokens_match_literals (p : string) (toks : list GlobTok) (s : string) :
  tokens_match (literals p ++ toks) s = true
  <-> exists s', s = p ++ s' /\ tokens_match toks s' = true.
Proof.
  revert s. induction p as [|c p IH]; intros s; simpl.
  - split.
    + intros H. exists s. auto.
    + intros (s' & -> & H). exact H.
  - destruct s as [|c' s]; simpl.
    + split; [discriminate | intros (s' & H & _); discriminate].
    + rewrite andb_true_iff, IH. split.
      * intros (Hc & s' & -> & H). apply Ascii.eqb_eq in Hc. subst c'.
        exists s'. auto.
      * intros (s' & Heq & H). injection Heq as -> ->.
        split; [apply Ascii.eqb_refl | exists s'; auto].
Qed.

Lemma tokens_match_star (toks : list GlobTok) (s : string) :
  tokens_match (GStar :: toks) s
  = tokens_match toks s
    || match s with
       | String c s' => negb (Ascii.eqb c "/") && tokens_match (GStar :: toks) s'
       | EmptyString => false
       end.
Proof. destruct s; reflexivity. Qed.

Lemma tokens_match_star_iff (toks : list GlobTok) (s : string) :
  tokens_match (GStar :: toks) s = true
  <-> exists seg s',
      s = seg ++ s' /\ no_slash seg = true /\ tokens_match toks s' = true.
Proof.
  induction s as [|c s IH]; rewrite tokens_match_star.
  - rewrite orb_false_r. split.
    + intros H. exists "", "". auto.
    + intros (seg & s' & Heq & _ & H).
      destruct seg; [simpl in Heq; subst s'; exact H | discriminate].
  - rewrite orb_true_iff, andb_true_iff, IH. split.
    + intros [H | (Hc & seg & s' & -> & Hseg & H)].
      * exists "", (String c s). auto.
      * exists (String c seg), s'. simpl. rewrite Hc, Hseg. auto.
    + intros (seg & s' & Heq & Hseg & H).
      destruct seg as [|c' seg]; simpl in Heq.
      * left. subst s'. exact H.
      * injection Heq as -> ->. simpl in Hseg.
        apply andb_true_iff in Hseg. destruct Hseg as [Hc Hseg].
        right. split; [exact Hc|]. exists seg, s'. auto.
Qed.

Lemma append_assoc (a b c : string) : (a ++ b) ++ c = a ++ (b ++ c).
Proof. induction a as [|x a IH]; simpl; [reflexivity | rewrite IH; reflexivity]. Qed.

(** What the pattern [p/*.jpg] matches when [p] has no glob characters:
    [p], a slash, one path segment, and [.jpg]. *)
Lemma glob_match_plain_prefix (p n : string) :
  plain p = true ->
  glob_match (p ++ "/*.jpg") n = true
  <-> exists seg, n = p ++ "/" ++ seg ++ ".jpg" /\ no_slash seg = true.
Proof.
  intros Hp. unfold glob_match.
  rewrite (glob_tokens_plain p "/*.jpg" Hp).
  change (glob_tokens "/*.jpg") with (literals "/" ++ GStar :: literals ".jpg")%list.
  rewrite tokens_match_literals. split.
  - intros (s1 & -> & H1).
    apply tokens_match_literals in H1. destruct H1 as (s2 & -> & H2).
    apply tokens_match_star_iff in H2. destruct H2 as (seg & s3 & -> & Hseg & H3).
    rewrite <- (app_nil_r (literals ".jpg")) in H3.
    apply tokens_match_literals in H3. destruct H3 as (s4 & -> & H4).
    destruct s4; [|discriminate].
    exists seg. auto.
  - intros (seg & -> & Hseg).
    exists ("/" ++ seg ++ ".jpg"). split; [reflexivity|].
    apply tokens_match_literals. exists (seg ++ ".jpg"). split; [reflexivity|].
    apply tokens_match_star_iff. exists seg, ".jpg". auto.
Qed.

(** ** C10 *)

(** C10, as stated, fails: with the non-empty prefix [A/**] the listing
    is filtered by [A/**/*.jpg], which enumerates [A/1/1_1.jpg], a name
    that is not the prefix followed by one path segment. *)
Lemma C10_prefix_with_wildcard :
  Prefix svc_readme <> ""
  /\ MatchGlob (listQuery svc_readme) = "A/**/*.jpg"
  /\ In img1_1 (listed (listQuery svc_readme) [img1_1; img1_2; img2_1])
  /\ ~ (exists seg,
         Name img1_1 = Prefix svc_readme ++ "/" ++ seg ++ ".jpg"
         /\ no_slash seg = true).
Proof.
  split; [discriminate|]. split; [reflexivity|].
  split; [vm_compute; auto|].
  intros (seg & H & _). simpl in H. discriminate.
Qed.

(** C10, amended. With a non-empty prefix the listing is filtered by
    the glob made of the prefix and [/*.jpg]; when the prefix has no
    glob character, the objects enumerated are exactly those of the
    bucket whose name is the prefix, a slash, one path segment and
    [.jpg]; with the empty prefix every object is enumerated. *)
Theorem C10_listing_filter (svc : ImgDeduper) (bucket : Bucket) :
  (Prefix svc <> "" ->
   MatchGlob (listQuery svc) = Prefix svc ++ "/*.jpg")
  /\ (Prefix svc <> "" ->
      plain (Prefix svc) = true ->
      forall a,
        In a (listed (listQuery svc) bucket)
        <-> In a bucket
            /\ exists seg,
                Name a = Prefix svc ++ "/" ++ seg ++ ".jpg"
                /\ no_slash seg = true)
  /\ (Prefix svc = "" -> listed (listQuery svc) bucket = bucket).
Proof.
  assert (Hq : Prefix svc <> "" ->
               listQuery svc = mkQuery (Prefix svc ++ "/*.jpg")).
  { intros Hne. unfold listQuery.
    destruct (String.eqb_spec (Prefix svc) ""); [contradiction | reflexivity]. }
  split; [|split].
  - intros Hne. rewrite (Hq Hne). reflexivity.
  - intros Hne Hp a. rewrite (Hq Hne). unfold listed.
    rewrite filter_In. unfold query_keeps. simpl MatchGlob.
    assert (Hnz : String.eqb (Prefix svc ++ "/*.jpg") "" = false).
    { destruct (Prefix svc); reflexivity. }
    rewrite Hnz, (glob_match_plain_prefix _ _ Hp). reflexivity.
  - intros He. unfold listQuery, listed. rewrite He. simpl.
    induction bucket as [|x l IH]; simpl; [reflexivity | f_equal; exact IH].
Qed.

Lemma C10_listing_filter_witness :
  MatchGlob (listQuery svc_prefix_A) = "A/*.jpg"
  /\ (In img_top (listed (listQuery svc_prefix_A) [img1_1; img_top])
      <-> In img_top [img1_1; img_top]
          /\ exists seg, Name img_top = "A" ++ "/" ++ seg ++ ".jpg"
                         /\ no_slash seg = true)
  /\ listed (listQuery (NewSvc (mkOpts 0 "" "src" "dst"))) [img1_1; img_top]
     = [img1_1; img_top].
Proof.
  split; [|split].
  - exact (proj1 (C10_listing_filter svc_prefix_A []) ltac:(discriminate)).
  - exact (proj1 (proj2 (C10_listing_filter svc_prefix_A [img1_1; img_top]))
                 ltac:(discriminate) eq_refl img_top).
  - exact (proj2 (proj2 (C10_listing_filter
                           (NewSvc (mkOpts 0 "" "src" "dst"))
                           [img1_1; img_top])) eq_refl).
Defined.

(** * Further properties of the code *)

(** ** What one pass can do to the world *)

Lemma lookup_update_bucket (b : string) (objs d : Bucket)
      (bs : list (string * Bucket)) :
  lookup_bucket b bs = Some d ->
  lookup_bucket b (update_bucket b objs bs) = Some objs.
Proof.
  induction bs as [|[n o] bs IH]; simpl; [discriminate|].
  destruct (String.eqb b n) eqn:E; simpl; rewrite E; auto.
Qed.

Lemma lookup_update_bucket_other (b b' : string) (objs : Bucket)
      (bs : list (string * Bucket)) :
  b' <> b ->
  lookup_bucket b' (update_bucket b objs bs) = lookup_bucket b' bs.
Proof.
  intros Hne. induction bs as [|[n o] bs IH]; simpl; [reflexivity|].
  destruct (String.eqb b n) eqn:E; simpl.
  - apply String.eqb_eq in E. subst n.
    destruct (String.eqb_spec b' b); [contradiction | reflexivity].
  - destruct (String.eqb b' n); [reflexivity | exact IH].
Qed.

(** The copy, in full: either it fails and the store is as before, or
    the source holds the object, the destination bucket exists without
    an object of that name, and the object is appended to it. *)
Lemma copyIfAbsent_effect (src dst n : string) (w : World) :
  exists err w',
    copyIfAbsent src dst n w = (Ok err, w')
    /\ images w' = images w
    /\ dbFaults w' = dbFaults w
    /\ listFaults w' = listFaults w
    /\ trace w' = (trace w ++ [EvCopy src dst n])%list
    /\ (err <> None -> buckets w' = buckets w)
    /\ (err = None ->
        exists s d o,
          lookup_bucket src (buckets w) = Some s
          /\ find_object n s = Some o
          /\ lookup_bucket dst (buckets w) = Some d
          /\ has_object n d = false
          /\ buckets w' = update_bucket dst (d ++ [o])%list (buckets w)).
Proof.
  unfold copyIfAbsent, popCopyFault. run.
  destruct w as [img fl bs cf lf tr]; simpl.
  destruct cf as [|[e|] cf]; simpl;
    try (do 2 eexists; (split; [reflexivity|]); simpl;
         repeat split; auto; intros; discriminate);
    (destruct (lookup_bucket src bs) as [s0|] eqn:Hs;
     [destruct (lookup_bucket dst bs) as [d|] eqn:Hd;
      [destruct (find_object n s0) as [o|] eqn:Ho;
       [destruct (has_object n d) eqn:Hn|]|]|];
     do 2 eexists; (split; [reflexivity|]); simpl;
     repeat split; auto; intros; try discriminate; try congruence;
     eauto 10).
Qed.

(** One pass, whatever the faults: the table is as before or has the
    object's row inserted; the store is as before or, the fingerprint
    having been absent from the table and the row being in, has the
    source object appended to a destination that had none of that
    name; the listing faults are untouched and the trace only grows. *)
Lemma processImage_effect (src dst : string) (attrs : option ObjectAttrs)
      (w : World) (r : Result unit) (w' : World) :
  processImage src dst attrs w = (r, w') ->
  (images w' = images w
   \/ exists a rows,
       attrs = Some a /\ images w = Some rows
       /\ images w' = Some (insert_row (row_of a) rows))
  /\ (buckets w' = buckets w
      \/ exists a rows s d o,
          attrs = Some a /\ images w = Some rows
          /\ count_crc32 (CRC32C a) rows = 0
          /\ images w' = Some (insert_row (row_of a) rows)
          /\ lookup_bucket src (buckets w) = Some s
          /\ find_object (Name a) s = Some o
          /\ lookup_bucket dst (buckets w) = Some d
          /\ has_object (Name a) d = false
          /\ buckets w' = update_bucket dst (d ++ [o])%list (buckets w))
  /\ listFaults w' = listFaults w
  /\ exists evs, trace w' = (trace w ++ evs)%list.
Proof.
  intros Hp. destruct attrs as [a|].
  2:{ injection Hp as <- <-.
      split; [auto|]. split; [auto|]. split; [reflexivity|].
      exists []. symmetry. apply app_nil_r. }
  destruct (getImageCount_frame (CRC32C a) w)
    as (cnt & err & w1 & Hg & Him1 & Hb1 & _ & Hl1 & Ht1 & Hok1).
  assert (Ht1' : exists e1, trace w1 = (trace w ++ e1)%list).
  { destruct Ht1 as [E|E]; rewrite E; [exists []; symmetry; apply app_nil_r|eauto]. }
  destruct Ht1' as (e1 & He1). clear Ht1.
  unfold processImage, bind at 1 in Hp. rewrite Hg in Hp.
  destruct err as [e|].
  { unfold With, Inc in Hp. run. simpl in Hp. injection Hp as <- <-.
    simpl. split; [auto|]. split; [auto|]. split; [exact Hl1|].
    rewrite He1, <- !app_assoc. eauto. }
  destruct (Hok1 eq_refl) as (_ & rows & Hrows & Hcnt). clear Hok1.
  unfold bind at 1, log at 1, emit, modify, bind at 1 in Hp. simpl in Hp.
  match type of Hp with
  | context [insertImage a ?s0 ?w0] =>
      destruct (insertImage_frame a s0 w0)
        as (err & w2 & Hi & Hb2 & _ & Hl2 & Ht2 & Hok2 & Hfail2)
  end.
  rewrite Hi in Hp. simpl in Hb2, Hl2, Ht2, Hok2, Hfail2.
  assert (Ht2' : exists e2, trace w2 = (trace w ++ e2)%list).
  { destruct Ht2 as [E|E]; rewrite E, He1, <- !app_assoc; eauto. }
  destruct Ht2' as (e2 & He2). clear Ht2.
  destruct err as [e|].
  { unfold With, Inc in Hp. run. simpl in Hp. injection Hp as <- <-.
    simpl. rewrite Hfail2 by discriminate.
    split; [left; congruence|]. split; [left; congruence|].
    split; [congruence|]. rewrite He2, <- ?app_assoc. eauto. }
  destruct (Hok2 eq_refl) as (_ & rows' & Hrows' & Himg2). clear Hok2 Hfail2.
  rewrite Him1, Hrows in Hrows'. injection Hrows' as <-.
  fold (row_of a) in Himg2.
  unfold bind at 1, log at 1, emit, modify, bind at 1 in Hp. simpl in Hp.
  destruct (cnt =? 0) eqn:Hc0.
  - apply Z.eqb_eq in Hc0.
    unfold bind at 1, log at 1, emit, modify, bind at 1 in Hp. simpl in Hp.
    unfold bind at 1 in Hp.
    match type of Hp with
    | context [copyIfAbsent ?s0 ?d0 ?n0 ?w0] =>
        destruct (copyIfAbsent_effect s0 d0 n0 w0)
          as (err & w3 & Hcp & Him3 & _ & Hl3 & Ht3 & Hfail3 & Hok3)
    end.
    rewrite Hcp in Hp. simpl in Him3, Hl3, Ht3, Hfail3, Hok3.
    destruct err as [e|]; unfold With, Inc in Hp; run; simpl in Hp;
      injection Hp as <- <-; simpl.
    + rewrite Hfail3 by discriminate. rewrite Him3, Himg2.
      split; [right; eauto|]. split; [left; congruence|].
      split; [congruence|]. rewrite Ht3, He2, <- !app_assoc. eauto.
    + destruct (Hok3 eq_refl) as (s & d & o & Hs & Ho & Hd & Hn & Hbs).
      rewrite Hb2, Hb1 in Hs, Hd, Hbs. rewrite Him3, Himg2.
      split; [right; eauto|].
      split; [right; exists a, rows, s, d, o; repeat split; auto; congruence|].
      split; [congruence|]. rewrite Ht3, He2, <- !app_assoc. eauto.
  - unfold With, Inc in Hp. run. simpl in Hp. injection Hp as <- <-. simpl.
    rewrite Himg2.
    split; [right; eauto|]. split; [left; congruence|].
    split; [congruence|]. rewrite He2, <- !app_assoc. eauto.
Qed.

(** ** Invariants of a whole run *)

Section RunInvariant.

Variables src dst : string.
Variable P : World -> Prop.

Hypothesis P_trace : forall w t, P w -> P (set_trace t w).
Hypothesis P_pass :
  forall attrs w r w', P w -> processImage src dst attrs w = (r, w') -> P w'.

(** A property of the world that no log line and no pass breaks is kept
    by the loop, however it ends and whenever a stop request comes. *)
Lemma loop_invariant (b : ObjectIterator) :
  forall (idx : Z) (m : Machine) (r : Result unit) (m' : Machine),
    P (world m) ->
    loop src dst b idx m = (r, m') ->
    P (world m').
Proof.
  induction b as [|x b IH]; intros idx [svc w k] r m' HP; simpl in HP.
  - cbn [loop]. unfold signalHandler, Stop, liftW. run.
    destruct k as [[|n]|]; simpl;
      try (destruct (Ready svc); simpl;
           try destruct (negb (Limit svc =? 0) && (wrap64 (idx + 1) >? Limit svc)));
      simpl; intros H; injection H as <- <-; simpl;
      repeat apply P_trace; exact HP.
  - cbn [loop Next]. pose proof P_pass as Hpass.
    set (PI := processImage src dst) in Hpass |- *. clearbody PI.
    unfold signalHandler, Stop, liftW. run.
    destruct k as [[|n]|]; simpl;
      try (destruct (Ready svc); simpl;
           try destruct (negb (Limit svc =? 0) && (wrap64 (idx + 1) >? Limit svc)));
      simpl;
      try (intros H; injection H as <- <-; simpl;
           repeat apply P_trace; exact HP);
      (destruct x as [a|e]; [|destruct e]); simpl;
      try (intros H; injection H as <- <-; simpl;
           repeat apply P_trace; exact HP);
      match goal with
      | |- context [PI ?at0 ?wx] =>
          destruct (PI at0 wx) as [r1 w1] eqn:Hp;
          assert (HP1 : P w1)
            by (eapply Hpass; [|exact Hp]; repeat apply P_trace; exact HP);
          destruct r1 as [[]|pmsg]; intros H;
          [ eapply IH; [|exact H]; exact HP1
          | injection H as <- <-; exact HP1 ]
      end.
Qed.

Hypothesis P_init :
  forall w r w', P w -> ExecuteTx tt initTable w = (r, w') -> P w'.

(** Such a property, when the schema transaction keeps it too, is kept
    by [Start]. *)
Lemma Start_invariant (m : Machine) (r : Result (option error)) (m' : Machine) :
  src = SrcBucketName (self m) ->
  dst = DstBucketName (self m) ->
  P (world m) ->
  Start m = (r, m') ->
  P (world m').
Proof.
  intros Hsrc Hdst HP Hs. rewrite Start_unfold in Hs.
  destruct (ExecuteTx tt initTable (add_events startup_events (world m)))
    as [r1 w1] eqn:Hinit.
  assert (HP1 : P w1).
  { eapply P_init; [|exact Hinit]. apply P_trace. exact HP. }
  destruct r1 as [[[] [e|]]|msg];
    try (injection Hs as <- <-; exact HP1).
  unfold bind at 1 in Hs. rewrite <- Hsrc, <- Hdst in Hs.
  match type of Hs with
  | context [loop src dst ?b 0 ?m0] =>
      destruct (loop src dst b 0 m0) as [r2 m2] eqn:Hl;
      assert (HP2 : P (world m2))
        by (eapply loop_invariant; [|exact Hl]; simpl; apply P_trace; exact HP1)
  end.
  destruct r2 as [[]|msg]; injection Hs as <- <-; exact HP2.
Qed.

End RunInvariant.

(** The schema transaction, in full: it leaves the store alone, and the
    table is as before or, having been absent, is created empty. *)
Lemma initTable_effect (w : World) (r : Result (unit * option error))
      (w' : World) :
  ExecuteTx tt initTable w = (r, w') ->
  buckets w' = buckets w
  /\ (images w' = images w \/ (images w = None /\ images w' = Some [])).
Proof.
  unfold ExecuteTx, initTable, exec_createTable, popDbFault. run.
  destruct w as [img fl bs cf lf tr]; simpl.
  destruct fl as [|[e1|] fl]; simpl;
    [ destruct img; simpl; intros H; injection H as <- <-; simpl; auto
    | intros H; injection H as <- <-; simpl; auto
    | ].
  destruct fl as [|[e|] fl]; simpl;
    [ destruct img; simpl; intros H; injection H as <- <-; simpl; auto
    | destruct e as [code| | | | |msg]; simpl;
      try destruct (String.eqb code "42P07"); simpl;
      try (destruct fl as [|[e'|] fl]; simpl);
      intros H; injection H as <- <-; simpl; auto
    | destruct img; simpl; destruct fl as [|[e'|] fl]; simpl;
      intros H; injection H as <- <-; simpl; auto ].
Qed.

Lemma insert_row_extends (r : Row) (rows : list Row) :
  exists extra, insert_row r rows = (rows ++ extra)%list.
Proof.
  unfold insert_row. destruct (has_name (name r) rows).
  - exists []. symmetry. apply app_nil_r.
  - exists [r]. reflexivity.
Qed.

Lemma has_name_insert_row_mono (n : string) (r : Row) (rows : list Row) :
  has_name n rows = true -> has_name n (insert_row r rows) = true.
Proof.
  intros H. destruct (insert_row_extends r rows) as (extra & ->).
  rewrite has_name_app, H. reflexivity.
Qed.

Lemma find_object_name (n : string) (d : Bucket) (o : ObjectAttrs) :
  find_object n d = Some o -> In o d /\ Name o = n.
Proof.
  intros H. apply find_some in H. destruct H as [Hin He].
  apply String.eqb_eq in He. auto.
Qed.

Lemma has_object_false (n : string) (d : Bucket) :
  has_object n d = false -> ~ In n (map Name d).
Proof.
  unfold has_object, find_object. intros H Hin.
  destruct (find (fun a => String.eqb (Name a) n) d) eqn:Hf; [discriminate|].
  apply in_map_iff in Hin. destruct Hin as (o & Ho & Hin).
  pose proof (find_none _ _ Hf o Hin) as Hne. simpl in Hne.
  rewrite Ho, String.eqb_refl in Hne. discriminate.
Qed.

(** ** The table under a whole run *)

(** The primary key survives every run: whatever the listing, the
    faults, the limit and the stop request, and however [Start] ends,
    a table without two rows of one name stays so. *)
Theorem Start_keeps_primary_key (m : Machine) (r : Result (option error))
        (m' : Machine) :
  table_keyed (world m) ->
  Start m = (r, m') ->
  table_keyed (world m').
Proof.
  intros HP Hs.
  refine (Start_invariant (SrcBucketName (self m)) (DstBucketName (self m))
            table_keyed _ _ _ m r m' eq_refl eq_refl HP Hs).
  - intros w t H. exact H.
  - intros attrs w r0 w' H Hp.
    destruct (processImage_effect _ _ _ _ _ _ Hp)
      as ([E | (a & rows & _ & Hrows & E)] & _).
    + unfold table_keyed in *. rewrite E. exact H.
    + unfold table_keyed in *. rewrite Hrows in H. rewrite E.
      apply insert_row_NoDup. exact H.
  - intros w r0 w' H Hi.
    destruct (initTable_effect _ _ _ Hi) as (_ & [E | (_ & E)]);
      unfold table_keyed in *; rewrite E; [exact H | constructor].
Qed.

Lemma Start_keeps_primary_key_witness :
  table_keyed (world (snd (Start machine_unlimited))).
Proof.
  apply (Start_keeps_primary_key machine_unlimited
           (fst (Start machine_unlimited)) (snd (Start machine_unlimited))).
  - simpl. constructor.
  - vm_compute. reflexivity.
Defined.

(** Rows are never deleted, changed or reordered: after any run, however
    it ends, the table is the table before followed by the rows added. *)
Theorem Start_only_appends_rows (m : Machine) (r : Result (option error))
        (m' : Machine) :
  Start m = (r, m') ->
  rows_kept (world m) (world m').
Proof.
  intros Hs.
  assert (H0 : rows_kept (world m) (world m)).
  { intros rows Hrows. exists []. rewrite app_nil_r. exact Hrows. }
  refine (Start_invariant (SrcBucketName (self m)) (DstBucketName (self m))
            (rows_kept (world m)) _ _ _ m r m' eq_refl eq_refl H0 Hs).
  - intros w t H. exact H.
  - intros attrs w r0 w' H Hp rows Hrows.
    destruct (H rows Hrows) as (extra & Hw).
    destruct (processImage_effect _ _ _ _ _ _ Hp)
      as ([E | (a & rows1 & _ & Hrows1 & E)] & _).
    + exists extra. congruence.
    + rewrite Hw in Hrows1. injection Hrows1 as <-.
      destruct (insert_row_extends (row_of a) (rows ++ extra)) as (x & Hx).
      exists (extra ++ x)%list. rewrite E, Hx, app_assoc. reflexivity.
  - intros w r0 w' H Hi rows Hrows.
    destruct (H rows Hrows) as (extra & Hw).
    destruct (initTable_effect _ _ _ Hi) as (_ & [E | (E & _)]).
    + exists extra. congruence.
    + congruence.
Qed.

Lemma Start_only_appends_rows_witness :
  rows_kept world_after_full_run (world (snd (Start machine_second_run))).
Proof.
  apply (Start_only_appends_rows machine_second_run
           (fst (Start machine_second_run)) (snd (Start machine_second_run))).
  vm_compute. reflexivity.
Defined.

(** ** The store under a whole run *)

(** No object is ever deleted, replaced or moved, in any bucket: after
    any run, however it ends, every bucket holds the objects it held,
    followed by those copied into it; buckets other than the destination
    are exactly as before. *)
Theorem Start_only_appends_objects (m : Machine) (r : Result (option error))
        (m' : Machine) (b : string) :
  Start m = (r, m') ->
  objects_kept b (world m) (world m')
  /\ (b <> DstBucketName (self m) ->
      lookup_bucket b (buckets (world m')) = lookup_bucket b (buckets (world m))).
Proof.
  intros Hs.
  set (P := fun w : World =>
              objects_kept b (world m) w
              /\ (b <> DstBucketName (self m) ->
                  lookup_bucket b (buckets w) = lookup_bucket b (buckets (world m)))).
  assert (H0 : P (world m)).
  { split; [|reflexivity]. intros d Hd. exists []. rewrite app_nil_r. exact Hd. }
  refine (Start_invariant (SrcBucketName (self m)) (DstBucketName (self m))
            P _ _ _ m r m' eq_refl eq_refl H0 Hs).
  - intros w t H. exact H.
  - intros attrs w r0 w' [Hk Ho] Hp.
    destruct (processImage_effect _ _ _ _ _ _ Hp)
      as (_ & [E | (a & rows & s & d & o & _ & _ & _ & _ & _ & _ & Hd & _ & E)] & _).
    + split; [intros d0 Hd0|intros Hne]; rewrite E; auto.
    + split.
      * intros d0 Hd0. destruct (Hk d0 Hd0) as (extra & Hw). rewrite E.
        destruct (String.eqb_spec b (DstBucketName (self m))) as [->|Hne].
        -- rewrite (lookup_update_bucket _ _ _ _ Hd).
           rewrite Hw in Hd. injection Hd as <-.
           exists (extra ++ [o])%list. rewrite app_assoc. reflexivity.
        -- rewrite (lookup_update_bucket_other _ _ _ _ Hne). eauto.
      * intros Hne. rewrite E, (lookup_update_bucket_other _ _ _ _ Hne). auto.
  - intros w r0 w' [Hk Ho] Hi.
    destruct (initTable_effect _ _ _ Hi) as (E & _).
    split; [intros d0 Hd0|intros Hne]; rewrite E; auto.
Qed.

Lemma Start_only_appends_objects_witness :
  objects_kept "dst" (world machine_unlimited)
               (world (snd (Start machine_unlimited)))
  /\ lookup_bucket "src" (buckets (world (snd (Start machine_unlimited))))
     = Some [img1_1; img1_2; img2_1].
Proof.
  destruct (Start_only_appends_objects machine_unlimited
              (fst (Start machine_unlimited)) (snd (Start machine_unlimited))
              "dst" ltac:(vm_compute; reflexivity)) as [Hk _].
  destruct (Start_only_appends_objects machine_unlimited
              (fst (Start machine_unlimited)) (snd (Start machine_unlimited))
              "src" ltac:(vm_compute; reflexivity)) as [_ Hs].
  split; [exact Hk|]. apply Hs. discriminate.
Defined.

(** The destination never gets two objects of one name: a bucket whose
    object names are distinct keeps them distinct through any run. *)
Theorem Start_keeps_object_names_distinct (m : Machine)
        (r : Result (option error)) (m' : Machine) (b : string) :
  bucket_keyed b (world m) ->
  Start m = (r, m') ->
  bucket_keyed b (world m').
Proof.
  intros HP Hs.
  refine (Start_invariant (SrcBucketName (self m)) (DstBucketName (self m))
            (bucket_keyed b) _ _ _ m r m' eq_refl eq_refl HP Hs).
  - intros w t H. exact H.
  - intros attrs w r0 w' H Hp.
    destruct (processImage_effect _ _ _ _ _ _ Hp)
      as (_ & [E | (a & rows & s & d & o & _ & _ & _ & _ & _ & Ho & Hd & Hn & E)] & _);
      unfold bucket_keyed in *; rewrite E; [exact H|].
    intros d0 Hd0.
    destruct (String.eqb_spec b (DstBucketName (self m))) as [->|Hne].
    + rewrite (lookup_update_bucket _ _ _ _ Hd) in Hd0. injection Hd0 as <-.
      rewrite map_app. simpl. apply NoDup_snoc; [apply H; exact Hd|].
      destruct (find_object_name _ _ _ Ho) as [_ ->].
      apply has_object_false. exact Hn.
    + rewrite (lookup_update_bucket_other _ _ _ _ Hne) in Hd0. auto.
  - intros w r0 w' H Hi.
    destruct (initTable_effect _ _ _ Hi) as (E & _).
    unfold bucket_keyed in *. rewrite E. exact H.
Qed.

Lemma Start_keeps_object_names_distinct_witness :
  bucket_keyed "dst" (world (snd (Start machine_unlimited))).
Proof.
  apply (Start_keeps_object_names_distinct machine_unlimited
           (fst (Start machine_unlimited)) (snd (Start machine_unlimited)) "dst").
  - intros d Hd. vm_compute in Hd. injection Hd as <-. constructor.
  - vm_compute. reflexivity.
Defined.

(** Every copied object is indexed: when each object of the destination
    has a row of its name in the table, this is still so after any run,
    however it ends. *)
Theorem Start_keeps_destination_indexed (m : Machine)
        (r : Result (option error)) (m' : Machine) :
  bucket_indexed (DstBucketName (self m)) (world m) ->
  Start m = (r, m') ->
  bucket_indexed (DstBucketName (self m)) (world m').
Proof.
  intros HP Hs.
  refine (Start_invariant (SrcBucketName (self m)) (DstBucketName (self m))
            (bucket_indexed (DstBucketName (self m))) _ _ _ m r m'
            eq_refl eq_refl HP Hs).
  - intros w t H. exact H.
  - intros attrs w r0 w' H Hp.
    destruct (processImage_effect _ _ _ _ _ _ Hp) as (Himg & Hbs & _).
    destruct Hbs as [E | (a & rows & s & d & o & _ & Hrows & _ & Hi & _ & Ho & Hd & _ & E)].
    + intros d0 o0 Hd0 Hin. rewrite E in Hd0.
      destruct (H d0 o0 Hd0 Hin) as (rows & Hrows & Hn).
      destruct Himg as [E' | (a & rows1 & _ & Hrows1 & E')]; rewrite E'.
      * eauto.
      * rewrite Hrows in Hrows1. injection Hrows1 as <-.
        eexists. split; [reflexivity|].
        apply has_name_insert_row_mono. exact Hn.
    + intros d0 o0 Hd0 Hin. rewrite E in Hd0.
      rewrite (lookup_update_bucket _ _ _ _ Hd) in Hd0. injection Hd0 as <-.
      rewrite Hi. eexists. split; [reflexivity|].
      apply in_app_or in Hin. destruct Hin as [Hin | [<- | []]].
      * destruct (H d o0 Hd Hin) as (rows0 & Hrows0 & Hn).
        rewrite Hrows in Hrows0. injection Hrows0 as <-.
        apply has_name_insert_row_mono. exact Hn.
      * destruct (find_object_name _ _ _ Ho) as [_ ->].
        apply (has_name_insert_row (row_of a)).
  - intros w r0 w' H Hi d0 o0 Hd0 Hin.
    destruct (initTable_effect _ _ _ Hi) as (E & Himg).
    rewrite E in Hd0. destruct (H d0 o0 Hd0 Hin) as (rows & Hrows & Hn).
    destruct Himg as [E' | (E' & _)]; [rewrite E'; eauto | congruence].
Qed.

Lemma Start_keeps_destination_indexed_witness :
  bucket_indexed "dst" (world (snd (Start machine_unlimited))).
Proof.
  apply (Start_keeps_destination_indexed machine_unlimited
           (fst (Start machine_unlimited)) (snd (Start machine_unlimited))).
  - intros d o Hd Hin. vm_compute in Hd. injection Hd as <-. destruct Hin.
  - vm_compute. reflexivity.
Defined.

Lemma Start_leaves_flag_set_witness :
  IsReady (self (snd (Start machine_limit_1))) = true.
Proof.
  apply (Start_leaves_flag_set machine_limit_1 (snd (Start machine_limit_1))).
  - reflexivity.
  - vm_compute. reflexivity.
Defined.

(** ** The index operations *)

(** The schema transaction never harms an existing table: whatever the
    faults, a table that exists keeps exactly its rows, and the store is
    untouched. *)
Theorem initTable_keeps_existing_table (w : World) (rows : list Row)
        (r : Result (unit * option error)) (w' : World) :
  images w = Some rows ->
  ExecuteTx tt initTable w = (r, w') ->
  images w' = Some rows /\ buckets w' = buckets w.
Proof.
  intros Hrows Hi.
  destruct (initTable_effect _ _ _ Hi) as (Hb & [E | (E & _)]).
  - split; congruence.
  - congruence.
Qed.

Lemma initTable_keeps_existing_table_witness :
  images (snd (ExecuteTx tt initTable world_fingerprint_known))
  = Some [row_of img3_1].
Proof.
  exact (proj1 (initTable_keeps_existing_table world_fingerprint_known
                  [row_of img3_1]
                  (fst (ExecuteTx tt initTable world_fingerprint_known))
                  (snd (ExecuteTx tt initTable world_fingerprint_known))
                  eq_refl eq_refl)).
Defined.

(** Which failures of the CREATE TABLE statement [initTable] reports:
    a [PgError] with a code other than 42P07 is returned; a [PgError]
    42P07 and every error that is not a [PgError] are swallowed, and
    [initTable] logs the creation and returns nil.  In each case the
    table is left as it was. *)
Theorem initTable_reports_only_PgErrors (w : World) (e : error)
        (fs : list (option error)) :
  dbFaults w = Some e :: fs ->
  images (snd (initTable w)) = images w
  /\ (forall code, e = PgError code -> code <> "42P07" ->
      fst (initTable w) = Ok (tt, Some e)
      /\ ~ In (EvLog LInfo "image table created")
             (new_events w (snd (initTable w))))
  /\ (e = PgError "42P07" \/ (forall code, e <> PgError code) ->
      fst (initTable w) = Ok (tt, None)
      /\ In (EvLog LInfo "image table created")
            (new_events w (snd (initTable w)))).
Proof.
  intros Hf. destruct w as [img fl bs cf lf tr]. simpl in Hf. subst fl.
  assert (Hsk : forall evs : list Event,
             skipn (length tr) (tr ++ evs) = evs).
  { intros evs. rewrite skipn_app, skipn_all, Nat.sub_diag. reflexivity. }
  unfold initTable, exec_createTable, popDbFault, new_events. run.
  destruct e as [code| | | | |msg]; simpl;
    try (split; [reflexivity|]; split;
         [ intros code Hc; discriminate
         | intros _; split; [reflexivity|];
           rewrite <- !app_assoc, Hsk; simpl; auto ]).
  destruct (String.eqb_spec code "42P07") as [->|Hne]; simpl.
  - split; [reflexivity|]. split.
    + intros code Hc Hn. injection Hc as <-. contradiction.
    + intros _. split; [reflexivity|].
      rewrite <- !app_assoc, Hsk. simpl. auto.
  - split; [reflexivity|]. split.
    + intros code' Hc Hn. split; [reflexivity|].
      rewrite <- !app_assoc, Hsk. simpl.
      intros [H|[H|[]]]; discriminate.
    + intros [H | H]; [injection H as ->; contradiction|].
      exfalso. apply (H code). reflexivity.
Qed.

Lemma initTable_reports_only_PgErrors_witness :
  fst (initTable (mkWorld None [Some (OtherError "connection reset")]
                          sample_buckets [] [] []))
  = Ok (tt, None).
Proof.
  destruct (initTable_reports_only_PgErrors
              (mkWorld None [Some (OtherError "connection reset")]
                       sample_buckets [] [] [])
              (OtherError "connection reset") [] eq_refl)
    as (_ & _ & H).
  assert (Hn : forall code, OtherError "connection reset" <> PgError code)
    by (intros code; discriminate).
  exact (proj1 (H (or_intror Hn))).
Defined.

(** The count only reads: whatever the faults, it returns without a
    panic and leaves table and store as they were; and a count returned
    without an error is the number of rows with that fingerprint, never
    negative. *)
Theorem getImageCount_only_reads (c : Z) (w : World)
        (r : Result (Z * option error)) (w' : World) :
  getImageCount c w = (r, w') ->
  images w' = images w
  /\ buckets w' = buckets w
  /\ (exists cnt err, r = Ok (cnt, err))
  /\ (forall cnt, r = Ok (cnt, None) ->
      exists rows, images w = Some rows
                   /\ cnt = Z.of_nat (length (filter (fun x => crc32 x =? c) rows))
                   /\ 0 <= cnt).
Proof.
  intros Hg.
  destruct (getImageCount_frame c w)
    as (cnt & err & w1 & Hf & Hi & Hb & _ & _ & _ & Hok).
  rewrite Hg in Hf. injection Hf as -> ->.
  split; [exact Hi|]. split; [exact Hb|]. split; [eauto|].
  intros cnt0 H. injection H as <- ->.
  destruct (Hok eq_refl) as (_ & rows & Hrows & Hc).
  exists rows. split; [exact Hrows|]. split; [exact Hc|].
  rewrite Hc. unfold count_crc32. lia.
Qed.

Lemma getImageCount_only_reads_witness :
  images (snd (getImageCount 3645130469 world_commit_fails))
  = Some [row_of img1_2]
  /\ exists cnt err,
      fst (getImageCount 3645130469 world_commit_fails) = Ok (cnt, err).
Proof.
  destruct (getImageCount_only_reads 3645130469 world_commit_fails
              (fst (getImageCount 3645130469 world_commit_fails))
              (snd (getImageCount 3645130469 world_commit_fails)) eq_refl)
    as (Hi & _ & Hr & _).
  split; [exact Hi | exact Hr].
Defined.

(** The insert records the name and harms no row: it never panics and
    never touches the store; whatever it returns, the table afterwards
    is the table before followed by what was added; and when it returns
    nil the table has a row of the object's name, the table being
    exactly as before when a row of that name was already there. *)
Theorem insertImage_records_name (a : ObjectAttrs) (s : string) (w : World)
        (r : Result (option error)) (w' : World) :
  insertImage a s w = (r, w') ->
  buckets w' = buckets w
  /\ (exists err, r = Ok err)
  /\ rows_kept w w'
  /\ (r = Ok None ->
      exists rows extra,
        images w = Some rows
        /\ images w' = Some (rows ++ extra)%list
        /\ has_name (Name a) (rows ++ extra) = true
        /\ (has_name (Name a) rows = true -> extra = [])).
Proof.
  intros Hi.
  destruct (insertImage_frame a s w)
    as (err & w1 & Hf & Hb & _ & _ & _ & Hok & Hfail).
  rewrite Hi in Hf. injection Hf as -> ->.
  split; [exact Hb|]. split; [eauto|]. split.
  - intros rows Hrows. destruct err as [e|].
    + exists []. rewrite app_nil_r, Hfail by discriminate. exact Hrows.
    + destruct (Hok eq_refl) as (_ & rows' & Hrows' & Himg).
      rewrite Hrows in Hrows'. injection Hrows' as <-.
      destruct (insert_row_extends
                  (mkRow (Name a) s (filepath_Dir (Name a)) (Size a) (CRC32C a))
                  rows) as (extra & Hx).
      exists extra. rewrite Himg, Hx. reflexivity.
  - intros H. injection H as ->.
    destruct (Hok eq_refl) as (_ & rows & Hrows & Himg).
    unfold insert_row in Himg. simpl in Himg.
    destruct (has_name (Name a) rows) eqn:Hn.
    + exists rows, []. rewrite app_nil_r.
      repeat split; auto.
    + exists rows, [mkRow (Name a) s (filepath_Dir (Name a)) (Size a) (CRC32C a)].
      split; [exact Hrows|]. split; [exact Himg|].
      split; [|intros H; congruence].
      rewrite has_name_app. simpl. rewrite String.eqb_refl.
      rewrite orb_true_r. reflexivity.
Qed.

Lemma insertImage_records_name_witness :
  rows_kept world_fingerprint_known
            (snd (insertImage img2_1 "A" world_fingerprint_known))
  /\ exists rows extra,
      images world_fingerprint_known = Some rows
      /\ images (snd (insertImage img2_1 "A" world_fingerprint_known))
         = Some (rows ++ extra)%list
      /\ has_name (Name img2_1) (rows ++ extra) = true.
Proof.
  destruct (insertImage_records_name img2_1 "A" world_fingerprint_known
              (fst (insertImage img2_1 "A" world_fingerprint_known))
              (snd (insertImage img2_1 "A" world_fingerprint_known)) eq_refl)
    as (_ & _ & Hk & H).
  split; [exact Hk|].
  destruct (H eq_refl) as (rows & extra & H1 & H2 & H3 & _).
  exists rows, extra. repeat split; assumption.
Defined.

Lemma count_crc32_insert (c : Z) (r : Row) (rows : list Row) :
  count_crc32 c (insert_row r rows)
  = count_crc32 c rows
    + (if has_name (name r) rows then 0 else if crc32 r =? c then 1 else 0).
Proof.
  unfold insert_row, count_crc32.
  destruct (has_name (name r) rows); [lia|].
  rewrite filter_app, length_app. simpl.
  destruct (crc32 r =? c); simpl; lia.
Qed.

(** Insert, then count: with the index operations succeeding, the count
    of a fingerprint right after the insert of an object is the count
    before, plus one exactly when the object's name was not in the table
    and its fingerprint is the one counted. *)
Theorem insert_then_count (a : ObjectAttrs) (s : string) (c : Z) (w : World)
        (rows : list Row) :
  images w = Some rows ->
  healthy (dbFaults w) ->
  exists w1 w2,
    insertImage a s w = (Ok None, w1)
    /\ getImageCount c w1
       = (Ok (count_crc32 c rows
              + (if has_name (Name a) rows then 0
                 else if CRC32C a =? c then 1 else 0), None), w2).
Proof.
  intros Himg Hh.
  do 2 eexists. split; [apply (insertImage_healthy a s w rows Himg Hh)|].
  rewrite getImageCount_healthy
    with (rows := insert_row (mkRow (Name a) s (filepath_Dir (Name a))
                                    (Size a) (CRC32C a)) rows);
    [| reflexivity | simpl; auto using healthy_tl3].
  rewrite count_crc32_insert. simpl. reflexivity.
Qed.

Lemma insert_then_count_witness :
  exists w1 w2,
    insertImage img2_1 "A" world_fingerprint_known = (Ok None, w1)
    /\ getImageCount 3645130469 w1 = (Ok (2, None), w2).
Proof.
  destruct (insert_then_count img2_1 "A" 3645130469 world_fingerprint_known
              [row_of img3_1] eq_refl (Forall_nil _))
    as (w1 & w2 & H1 & H2).
  exists w1, w2. split; [exact H1 | exact H2].
Defined.

(** ** The row of an object *)

Lemma strings_Split_not_nil (s : string) (sep : ascii) :
  strings_Split s sep <> [].
Proof.
  destruct s as [|c r]; simpl; [discriminate|].
  destruct (strings_Split r sep); [discriminate|].
  destruct (Ascii.eqb c sep); discriminate.
Qed.

Lemma strings_Split_head (n : string) :
  exists rest,
    n = hd "" (strings_Split n "/") ++ rest
    /\ no_slash (hd "" (strings_Split n "/")) = true
    /\ (rest = "" \/ exists r, rest = String "/" r).
Proof.
  induction n as [|c r IH]; simpl.
  - exists "". auto.
  - destruct IH as (rest & Hr & Hs & Hrest).
    destruct (strings_Split r "/") as [|seg segs] eqn:E.
    + exfalso. exact (strings_Split_not_nil r "/" E).
    + simpl in Hr, Hs. destruct (Ascii.eqb_spec c "/") as [->|Hne]; simpl.
      * exists (String "/" r). eauto.
      * exists rest. split; [congruence|]. split; [|exact Hrest].
        apply Ascii.eqb_neq in Hne. rewrite Hne, Hs. reflexivity.
Qed.

Lemma append_empty_r (s : string) : s ++ "" = s.
Proof. induction s as [|c s IH]; simpl; [reflexivity | rewrite IH; reflexivity]. Qed.

(** The row a pass records: with the index operations succeeding, a
    pass over an object whose name is not in the table returns and
    appends one row to the table; that row has the object's name and
    fingerprint, and as section the part of the name before the first
    slash: the section has no slash, and the name is the section alone
    or the section, a slash and the rest. *)
Theorem processImage_records_section (src dst : string) (a : ObjectAttrs)
        (w : World) (rows : list Row) :
  images w = Some rows ->
  healthy (dbFaults w) ->
  has_name (Name a) rows = false ->
  exists w' r,
    processImage src dst (Some a) w = (Ok tt, w')
    /\ images w' = Some (rows ++ [r])%list
    /\ name r = Name a
    /\ crc32 r = CRC32C a
    /\ no_slash (section r) = true
    /\ (Name a = section r
        \/ exists rest, Name a = section r ++ "/" ++ rest).
Proof.
  intros Himg Hh Hn.
  destruct (processImage_healthy src dst a w rows Himg Hh)
    as (w' & evs & Hp & Hi & _).
  exists w', (row_of a). split; [exact Hp|].
  split. { rewrite Hi. unfold insert_row. simpl. rewrite Hn. reflexivity. }
  split; [reflexivity|]. split; [reflexivity|].
  destruct (strings_Split_head (Name a)) as (rest & Hr & Hs & Hrest).
  split; [exact Hs|]. simpl.
  destruct Hrest as [-> | (r & ->)].
  - left. rewrite append_empty_r in Hr. exact Hr.
  - right. exists r. exact Hr.
Qed.

Lemma processImage_records_section_witness :
  exists w' r,
    processImage "src" "dst" (Some img1_1) sample_world = (Ok tt, w')
    /\ images w' = Some [r]
    /\ name r = "A/1/1_1.jpg"
    /\ no_slash (section r) = true.
Proof.
  destruct (processImage_records_section "src" "dst" img1_1 sample_world []
              eq_refl (Forall_nil _) eq_refl)
    as (w' & r & Hp & Hi & Hn & _ & Hs & _).
  exists w', r. repeat split; assumption.
Defined.

(** ** What a pass reports *)

(** With the index operations succeeding, a pass over an object returns
    and increments the counter exactly once, with both labels; the
    operation label is [copy] exactly when no row had the fingerprint
    before the pass, and exactly then one copy of the object is
    requested; otherwise the label is [skip] and no copy is requested. *)
Theorem processImage_reports_once (src dst : string) (a : ObjectAttrs)
        (w : World) (rows : list Row) :
  images w = Some rows ->
  healthy (dbFaults w) ->
  exists w' l,
    processImage src dst (Some a) w = (Ok tt, w')
    /\ increments (new_events w w') = [l]
    /\ labelsValid l = true
    /\ label_value "operation" l
       = Some (if count_crc32 (CRC32C a) rows =? 0 then "copy" else "skip")
    /\ filter is_copy (new_events w w')
       = (if count_crc32 (CRC32C a) rows =? 0
          then [EvCopy src dst (Name a)] else []).
Proof.
  intros Himg Hh.
  assert (Hsk : forall evs : list Event,
             skipn (length (trace w)) (trace w ++ evs) = evs).
  { intros evs. rewrite skipn_app, skipn_all, Nat.sub_diag. reflexivity. }
  destruct (Z.eq_dec (count_crc32 (CRC32C a) rows) 0) as [Hc|Hc].
  - rewrite Hc. simpl Z.eqb. cbv iota.
    unfold processImage, bind at 1.
    rewrite (getImageCount_healthy _ _ _ Himg Hh).
    unfold bind at 1, log at 1, emit, modify, bind at 1. simpl.
    rewrite insertImage_healthy with (rows := rows);
      [| reflexivity | simpl; auto using healthy_tl3].
    rewrite Hc. simpl.
    unfold bind at 1, log at 1, emit, modify, bind at 1. simpl.
    unfold bind at 1, log at 1, emit, modify, bind at 1. simpl.
    match goal with
    | |- context [copyIfAbsent ?s ?t ?n ?w0] =>
        destruct (copyIfAbsent_frame s t n w0) as (err & bs & cf & Hcopy & _)
    end.
    rewrite Hcopy.
    destruct err as [e|]; unfold With, Inc, new_events; run;
      do 2 eexists; (split; [reflexivity|]); simpl;
      rewrite <- !app_assoc, Hsk; simpl; auto.
  - apply Z.eqb_neq in Hc. rewrite Hc. apply Z.eqb_neq in Hc.
    do 2 eexists.
    split; [apply (processImage_skip src dst a w rows Himg Hh Hc)|].
    unfold new_events. simpl. rewrite <- !app_assoc, Hsk. simpl. auto.
Qed.

Lemma processImage_reports_once_witness :
  exists w' l,
    processImage "src" "dst" (Some img2_1) world_fingerprint_known = (Ok tt, w')
    /\ increments (new_events world_fingerprint_known w') = [l]
    /\ label_value "operation" l = Some "skip"
    /\ filter is_copy (new_events world_fingerprint_known w') = [].
Proof.
  destruct (processImage_reports_once "src" "dst" img2_1
              world_fingerprint_known [row_of img3_1] eq_refl (Forall_nil _))
    as (w' & l & Hp & Hi & _ & Hl & Hc).
  exists w', l. repeat split; assumption.
Defined.

(** ** Limits and stop requests *)

Section LoopEnds.

Variables src dst : string.
Variable svc : ImgDeduper.
Hypothesis Hready : Ready svc = true.

(** When the limit is already exceeded the loop ends at once, whatever
    the iterator holds and whenever a stop request comes, without
    fetching or processing anything. *)
Lemma loop_limit_exceeded (b : ObjectIterator) (idx : Z) (w : World)
      (k : option nat) :
  negb (Limit svc =? 0) && (wrap64 (idx + 1) >? Limit svc) = true ->
  exists m' evs,
    loop src dst b idx (mkMachine svc w k) = (Ok tt, m')
    /\ world m' = add_events evs w
    /\ filter is_processing evs = [].
Proof.
  intros Hc.
  destruct b as [|x b]; cbn [loop]; unfold signalHandler, Stop, liftW; run;
    destruct k as [[|n]|]; simpl; rewrite ?Hready, ?Hc; simpl;
    do 2 eexists; (split; [reflexivity|]); simpl;
    unfold add_events, set_trace; simpl;
    first [ split; [reflexivity | reflexivity]
          | split; [rewrite <- ?app_assoc; reflexivity | reflexivity] ].
Qed.

(** A stop request that has landed ends the loop before anything is
    fetched, with the flag cleared. *)
Lemma loop_stop_now (b : ObjectIterator) (idx : Z) (w : World) :
  loop src dst b idx (mkMachine svc w (Some O))
  = (Ok tt,
     mkMachine (set_Ready false svc)
               (add_events [EvLog LInfo "stopping service"] w) None).
Proof.
  destruct b as [|x b]; cbn [loop]; unfold signalHandler, Stop, liftW; run;
    reflexivity.
Qed.

Hypothesis Hunlimited : Limit svc = 0.

Lemma loop_tick_nil (idx : Z) (w : World) (n : nat) :
  loop src dst [] idx (mkMachine svc w (Some (S n)))
  = (Ok tt, mkMachine svc (add_events [EvNext] w) (Some n)).
Proof.
  cbn [loop]. unfold signalHandler, liftW. run. rewrite Hready, Hunlimited.
  reflexivity.
Qed.

Lemma loop_tick_item (a : ObjectAttrs) (b : ObjectIterator) (idx : Z)
      (w : World) (n : nat) :
  loop src dst (Item a :: b) idx (mkMachine svc w (Some (S n)))
  = match processImage src dst (Some a) (add_events [EvNext] w) with
    | (Ok _, w1) => loop src dst b (wrap64 (idx + 1)) (mkMachine svc w1 (Some n))
    | (Panic msg, w1) => (Panic msg, mkMachine svc w1 (Some n))
    end.
Proof.
  cbn [loop Next].
  generalize (processImage src dst (Some a)). intros PI.
  unfold signalHandler, liftW. run. rewrite Hready, Hunlimited. simpl.
  unfold add_events, set_trace. simpl.
  match goal with
  | |- context [PI ?w0] => destruct (PI w0) as [[[]|msg] w1]
  end; reflexivity.
Qed.

(** The loop without limit, on a listing without faults and a healthy
    database, with a stop request landing after [k] iterations: exactly
    the first [k] objects are processed, and the flag is cleared when
    the request lands before the listing is exhausted. *)
Lemma loop_stopped (objs : list ObjectAttrs) :
  forall (k : nat) (idx : Z) (w : World) (rows : list Row),
    images w = Some rows ->
    healthy (dbFaults w) ->
    exists m' evs,
      loop src dst (map Item objs) idx (mkMachine svc w (Some k)) = (Ok tt, m')
      /\ trace (world m') = (trace w ++ evs)%list
      /\ inserted evs = map row_of (firstn k objs)
      /\ counted evs = map CRC32C (firstn k objs)
      /\ ((k <= length objs)%nat -> self m' = set_Ready false svc)
      /\ ((length objs < k)%nat -> self m' = svc).
Proof.
  induction objs as [|a objs IH]; intros k idx w rows Himg Hh.
  - destruct k as [|n]; simpl map.
    + rewrite loop_stop_now. do 2 eexists. split; [reflexivity|]. simpl.
      repeat split; auto. intros H. inversion H.
    + rewrite loop_tick_nil. do 2 eexists. split; [reflexivity|]. simpl.
      repeat split; auto. intros H. inversion H.
  - destruct k as [|n]; simpl map.
    + rewrite loop_stop_now. do 2 eexists. split; [reflexivity|]. simpl.
      repeat split; auto. intros H. inversion H.
    + rewrite loop_tick_item.
      destruct (processImage_healthy src dst a (add_events [EvNext] w) rows
                  Himg Hh)
        as (w1 & evs1 & Hp & Himg1 & Hh1 & Ht1 & Hc1 & Hi1 & _ & _).
      rewrite Hp.
      destruct (IH n (wrap64 (idx + 1)) w1 _ Himg1 Hh1)
        as (m' & evs & Hl & Ht & Hi & Hc & Hle & Hgt).
      exists m', ([EvNext] ++ evs1 ++ evs)%list.
      split; [exact Hl|].
      split. { rewrite Ht, Ht1. simpl. rewrite <- !app_assoc. reflexivity. }
      simpl. rewrite inserted_app, counted_app, Hi1, Hc1, Hi, Hc.
      repeat split; auto; intros H; [apply Hle | apply Hgt]; simpl in H; lia.
Qed.

End LoopEnds.

(** A negative limit processes nothing: [Start] on a service whose limit
    is below zero fetches, counts, inserts and copies no object and
    leaves the store as it was, whatever the listing and the faults. *)
Theorem Start_negative_limit (m : Machine) (r : Result (option error))
        (m' : Machine) :
  Limit (self m) < 0 ->
  Start m = (r, m') ->
  filter is_processing (new_events (world m) (world m')) = []
  /\ buckets (world m') = buckets (world m)
  /\ (exists err, r = Ok err).
Proof.
  intros Hneg Hs. rewrite Start_unfold in Hs.
  destruct (initTable_frame (add_events startup_events (world m)))
    as (err & w1 & Hf & Hb & _ & evs & Ht & Hevs).
  rewrite Hf in Hs. simpl in Hb, Ht.
  assert (Hsk : forall l : list Event,
             skipn (length (trace (world m))) (trace (world m) ++ l) = l).
  { intros l. rewrite skipn_app, skipn_all, Nat.sub_diag. reflexivity. }
  destruct err as [e|].
  - injection Hs as <- <-. unfold new_events. simpl.
    rewrite Ht, <- app_assoc, Hsk.
    split; [apply filter_is_processing_app; [reflexivity | exact Hevs]|].
    split; [exact Hb | eauto].
  - unfold bind at 1 in Hs.
    match type of Hs with
    | context [loop ?s ?d ?b 0 (mkMachine ?svc ?w0 ?k)] =>
        destruct (loop_limit_exceeded s d svc eq_refl b 0 w0 k)
          as (m1 & evs1 & Hl & Hw & Hevs1)
    end.
    { simpl Limit. change (wrap64 (0 + 1)) with 1.
      apply andb_true_iff. split.
      - apply negb_true_iff. apply Z.eqb_neq. lia.
      - apply Z.gtb_lt. lia. }
    rewrite Hl in Hs. injection Hs as <- <-.
    unfold new_events. rewrite Hw. simpl.
    rewrite Ht, <- !app_assoc, Hsk.
    split; [|split; [exact Hb | eauto]].
    repeat apply filter_is_processing_app; try reflexivity; assumption.
Qed.

Lemma Start_negative_limit_witness :
  filter is_processing
    (new_events (world machine_negative_limit)
                (world (snd (Start machine_negative_limit)))) = []
  /\ buckets (world (snd (Start machine_negative_limit))) = sample_buckets.
Proof.
  destruct (Start_negative_limit machine_negative_limit
              (fst (Start machine_negative_limit))
              (snd (Start machine_negative_limit))
              ltac:(vm_compute; reflexivity) ltac:(vm_compute; reflexivity))
    as (H1 & H2 & _).
  split; [exact H1 | exact H2].
Defined.

(** A stop request is honoured at the next test of the flag: on a run
    without limit, listing fault or database fault, when the write of
    [Stop] lands after [Start] has set the flag and the loop has tested
    it [k] times, [Start] returns nil having processed exactly the first
    [k] listed objects; when it landed before the listing was exhausted
    the flag is cleared and the health probe answers not-ready, and
    otherwise the run is complete and the flag still set. *)
Theorem Start_stop_request (m : Machine) (bucket : Bucket) (k : nat) :
  lookup_bucket (SrcBucketName (self m)) (buckets (world m)) = Some bucket ->
  listFaults (world m) = [] ->
  healthy (dbFaults (world m)) ->
  stopAfter m = Some k ->
  Limit (self m) = 0 ->
  exists m',
    Start m = (Ok None, m')
    /\ inserted (new_events (world m) (world m'))
       = map row_of (firstn k (listed (listQuery (self m)) bucket))
    /\ counted (new_events (world m) (world m'))
       = map CRC32C (firstn k (listed (listQuery (self m)) bucket))
    /\ ((k <= length (listed (listQuery (self m)) bucket))%nat ->
        IsReady (self m') = false /\ health (self m') = (500, "not ready"))
    /\ ((length (listed (listQuery (self m)) bucket) < k)%nat ->
        IsReady (self m') = true).
Proof.
  intros Hsrc Hlf Hh Hstop HN.
  set (objs := listed (listQuery (self m)) bucket) in *.
  rewrite Start_unfold.
  rewrite initTable_healthy by exact Hh.
  assert (Hit : sourceIterator m = map Item objs).
  { unfold sourceIterator. rewrite Hsrc, Hlf. reflexivity. }
  rewrite Hit, Hstop.
  unfold bind at 1.
  match goal with
  | |- context [loop ?s ?d _ 0 (mkMachine ?svc ?w0 (Some k))] =>
      destruct (loop_stopped s d svc eq_refl HN objs k 0 w0
                  (match images (world m) with Some rows => rows | None => [] end)
                  eq_refl ltac:(simpl; auto using healthy_tl3))
        as (m' & evs & Hl & Ht & Hi & Hc & Hle & Hgt)
  end.
  rewrite Hl. simpl in Ht.
  exists m'. split; [reflexivity|].
  unfold new_events. rewrite Ht.
  rewrite <- !app_assoc. rewrite skipn_app, skipn_all, Nat.sub_diag. simpl.
  split; [exact Hi|]. split; [exact Hc|]. split.
  - intros H. rewrite (Hle H). split; reflexivity.
  - intros H. rewrite (Hgt H). reflexivity.
Qed.

Lemma Start_stop_request_witness :
  exists m',
    Start machine_stopped_after_2 = (Ok None, m')
    /\ inserted (new_events (world machine_stopped_after_2) (world m'))
       = [row_of img1_1; row_of img1_2]
    /\ IsReady (self m') = false.
Proof.
  destruct (Start_stop_request machine_stopped_after_2
              [img1_1; img1_2; img2_1] 2
              eq_refl eq_refl (Forall_nil _) eq_refl eq_refl)
    as (m' & Hs & Hi & _ & Hle & _).
  exists m'. split; [exact Hs|]. split; [exact Hi|].
  apply Hle. vm_compute. repeat constructor.
Defined.

(** ** A run over objects already indexed *)

Lemma all_indexed_skip (a : ObjectAttrs) (objs : list ObjectAttrs)
      (rows : list Row) :
  all_indexed (a :: objs) rows ->
  count_crc32 (CRC32C a) rows <> 0
  /\ insert_row (row_of a) rows = rows
  /\ all_indexed objs rows.
Proof.
  intros H. destruct (H a (or_introl eq_refl)) as (r & Hin & Hn & Hc).
  split; [rewrite <- Hc; apply count_crc32_In; exact Hin|].
  split.
  - unfold insert_row. simpl. rewrite <- Hn, (has_name_In r rows Hin).
    reflexivity.
  - intros x Hx. apply H. right. exact Hx.
Qed.

Section LoopIndexed.

Variables src dst : string.
Variable svc : ImgDeduper.
Hypothesis Hready : Ready svc = true.

Lemma loop_all_indexed (objs : list ObjectAttrs) :
  forall (idx : Z) (w : World) (rows : list Row),
    images w = Some rows ->
    healthy (dbFaults w) ->
    all_indexed objs rows ->
    exists w' evs,
      loop src dst (map Item objs) idx (mkMachine svc w None)
      = (Ok tt, mkMachine svc w' None)
      /\ images w' = Some rows
      /\ buckets w' = buckets w
      /\ trace w' = (trace w ++ evs)%list
      /\ filter is_copy evs = []
      /\ Forall (fun o => o = SuccessSkip) (outcomes evs).
Proof.
  induction objs as [|a objs IH]; intros idx w rows Himg Hh Hall.
  - simpl map. rewrite (loop_nil src dst svc Hready).
    destruct (negb (Limit svc =? 0) && (wrap64 (idx + 1) >? Limit svc));
      do 2 eexists; (split; [reflexivity|]); simpl;
      repeat split; auto.
  - simpl map. rewrite (loop_item src dst svc Hready).
    destruct (negb (Limit svc =? 0) && (wrap64 (idx + 1) >? Limit svc)).
    + do 2 eexists. split; [reflexivity|]. simpl. repeat split; auto.
    + destruct (all_indexed_skip a objs rows Hall) as (Hc & Hnoop & Hall').
      rewrite (processImage_skip src dst a (add_events [EvNext] w) rows
                 Himg Hh Hc).
      match goal with
      | |- context [loop src dst _ ?i (mkMachine svc ?w1 None)] =>
          destruct (IH i w1 rows)
            as (w' & evs & Hl & Hi & Hb & Ht & Hcp & Ho);
          [ simpl; rewrite Hnoop; reflexivity
          | simpl; apply healthy_tl6; exact Hh
          | exact Hall' | ]
      end.
      exists w', ([EvNext; EvCount (CRC32C a); EvLog LDebug "count";
                   EvInsert (row_of a); EvLog LDebug "insert"]
                  ++ skip_events ++ evs)%list.
      split; [exact Hl|]. split; [exact Hi|]. split; [exact Hb|].
      split. { rewrite Ht. simpl. rewrite <- !app_assoc. reflexivity. }
      simpl. split; [exact Hcp|]. constructor; [reflexivity | exact Ho].
Qed.

End LoopIndexed.

(** Running again over objects that are all indexed, by name and
    fingerprint, changes nothing: without listing fault, database fault
    or stop request, [Start] returns nil, the table has exactly the rows
    it had, the store is as it was, no copy is requested and every
    object processed is reported as a skip. *)
Theorem Start_over_indexed_objects (m : Machine) (bucket : Bucket)
        (rows : list Row) :
  images (world m) = Some rows ->
  lookup_bucket (SrcBucketName (self m)) (buckets (world m)) = Some bucket ->
  all_indexed (listed (listQuery (self m)) bucket) rows ->
  listFaults (world m) = [] ->
  healthy (dbFaults (world m)) ->
  stopAfter m = None ->
  exists m',
    Start m = (Ok None, m')
    /\ images (world m') = Some rows
    /\ buckets (world m') = buckets (world m)
    /\ filter is_copy (new_events (world m) (world m')) = []
    /\ Forall (fun o => o = SuccessSkip)
              (outcomes (new_events (world m) (world m'))).
Proof.
  intros Himg Hsrc Hall Hlf Hh Hstop.
  set (objs := listed (listQuery (self m)) bucket) in *.
  rewrite Start_unfold.
  rewrite initTable_healthy by exact Hh.
  assert (Hit : sourceIterator m = map Item objs).
  { unfold sourceIterator. rewrite Hsrc, Hlf. reflexivity. }
  rewrite Hit, Hstop.
  unfold bind at 1.
  match goal with
  | |- context [loop ?s ?d _ 0 (mkMachine ?svc ?w0 None)] =>
      destruct (loop_all_indexed s d svc eq_refl objs 0 w0 rows)
        as (w' & evs & Hl & Hi & Hb & Ht & Hcp & Ho);
      [ simpl; rewrite Himg; reflexivity
      | simpl; auto using healthy_tl3
      | exact Hall | ]
  end.
  rewrite Hl. simpl in Ht, Hb.
  eexists. split; [reflexivity|]. simpl.
  split; [exact Hi|]. split; [exact Hb|].
  unfold new_events. rewrite Ht.
  rewrite <- !app_assoc. rewrite skipn_app, skipn_all, Nat.sub_diag. simpl.
  split; [exact Hcp | exact Ho].
Qed.

Lemma Start_over_indexed_objects_witness :
  exists m',
    Start machine_second_run = (Ok None, m')
    /\ images (world m') = images world_after_full_run
    /\ buckets (world m') = buckets world_after_full_run.
Proof.
  assert (Hall : all_indexed [img1_1; img1_2; img2_1]
                   [row_of img1_1; row_of img1_2; row_of img2_1]).
  { intros a [<- | [<- | [<- | []]]].
    - exists (row_of img1_1). simpl. auto.
    - exists (row_of img1_2). simpl. auto.
    - exists (row_of img2_1). simpl. auto. }
  destruct (Start_over_indexed_objects machine_second_run
              [img1_1; img1_2; img2_1]
              [row_of img1_1; row_of img1_2; row_of img2_1]
              eq_refl eq_refl Hall eq_refl (Forall_nil _) eq_refl)
    as (m' & Hs & Hi & Hb & _).
  exists m'. split; [exact Hs|]. split; [exact Hi | exact Hb].
Defined.
